(** * kubernetes-ipfs: the step execution engine of [main.go]

    A shallow embedding of the test runner: the Go data model as records,
    [int] as a 64-bit two's-complement integer carried in [Z], strings as
    [string], the process and the cluster as explicit inputs, and panics,
    blocked channel receives and fatal exits as explicit outcomes. *)

From Stdlib Require Import ZArith List String Ascii Bool Lia.
From Stdlib Require DecimalString DecimalZ DecimalFacts.
Import ListNotations.

Open Scope string_scope.
Open Scope list_scope.
Open Scope Z_scope.

(** ** Go [int]: 64-bit signed, wrapping on overflow *)

Module GoInt.

Definition min_int : Z := - 2 ^ 63.
Definition max_int : Z := 2 ^ 63 - 1.

Definition wrap (z : Z) : Z := (z + 2 ^ 63) mod 2 ^ 64 - 2 ^ 63.

Definition add (a b : Z) : Z := wrap (a + b).
Definition sub (a b : Z) : Z := wrap (a - b).

Definition in_range (z : Z) : Prop := min_int <= z <= max_int.

End GoInt.

(** ** The parts of package [strings] that [main.go] calls *)

Module GoStrings.

Definition newline : ascii := "010"%char.
Definition dquote : ascii := "034"%char.

Definition str1 (c : ascii) : string := String c EmptyString.

(** [strings.Split(s, sep)] for a one-byte separator: always at least one
    element, and an empty last element when [s] ends with [sep]. *)
Fixpoint Split (s : string) (sep : ascii) : list string :=
  match s with
  | EmptyString => [EmptyString]
  | String c s' =>
      if Ascii.eqb c sep then EmptyString :: Split s' sep
      else match Split s' sep with
           | h :: t => String c h :: t
           | [] => [str1 c]
           end
  end.

(** [strings.Join(elems, sep)]. *)
Fixpoint Join (elems : list string) (sep : string) : string :=
  match elems with
  | [] => EmptyString
  | e :: rest =>
      match rest with
      | [] => e
      | _ :: _ => (e ++ sep ++ Join rest sep)%string
      end
  end.

(** [s[:len(s)-1]] on a slice that is known to be non-empty. *)
Definition drop_last {A : Type} (l : list A) : list A := removelast l.

End GoStrings.

(** ** Data model (the structs of [main.go]) *)

Module Summary.
(** [Start] and [End] are wall-clock stamps used only by [printSummary]. *)
Record t := mk
  { Successes : Z; Failures : Z; TestsToRun : Z; TestsRan : Z; Timeouts : Z }.
Definition zero : t := mk 0 0 0 0 0.
End Summary.

Module Output.
Record t := mk { Line : Z; SaveTo : string; SaveToFile : string }.
End Output.

Module Assertion.
Record t := mk { Line : Z; ShouldBeEqualTo : string }.
End Assertion.

Module Step.
Record t := mk
  { Name : string;
    OnNode : Z;
    EndNode : Z;
    CMD : string;
    Timeout : Z;
    Outputs : list Output.t;
    Inputs : list string;
    Assertions : list Assertion.t;
    WriteToFile : string }.

Definition with_EndNode (s : t) (e : Z) : t :=
  mk (Name s) (OnNode s) e (CMD s) (Timeout s) (Outputs s) (Inputs s)
     (Assertions s) (WriteToFile s).
End Step.

Module Expected.
Record t := mk { Successes : Z; Failures : Z; Timeouts : Z }.
End Expected.

Module Config.
Record t := mk
  { Nodes : Z;
    Selector : string;
    Times : Z;
    GraceShutdown : Z;
    Expected : Expected.t }.
End Config.

Module Test.
Record t := mk { Name : string; Config : Config.t; Steps : list Step.t }.
End Test.

Module Pod.
Record t := mk { MetadataName : string; StatusPhase : string }.
End Pod.

Module GetPodsOutput.
Record t := mk { Items : list Pod.t }.
End GetPodsOutput.

(** ** Outcomes of running Go code *)

Inductive outcome (A : Type) : Type :=
| Ok (a : A)        (* ran to completion *)
| Panics            (* run-time panic: the process dies with a non-zero code *)
| Blocks            (* a channel receive that no sender will ever serve *)
| NotModelled.      (* a pattern outside the regexp fragment below *)

Arguments Ok {A} a.
Arguments Panics {A}.
Arguments Blocks {A}.
Arguments NotModelled {A}.

Definition bind {A B : Type} (m : outcome A) (f : A -> outcome B) : outcome B :=
  match m with
  | Ok a => f a
  | Panics => Panics
  | Blocks => Blocks
  | NotModelled => NotModelled
  end.

Notation "x <- m ;; k" := (bind m (fun x => k))
  (at level 61, m at next level, right associativity).

Definition outcome_map {A B : Type} (f : A -> B) (m : outcome A) : outcome B :=
  x <- m ;; Ok (f x).

(** Indexing a slice with an [int]: out of range panics. *)
Definition elem_at {A : Type} (l : list A) (i : Z) : outcome A :=
  if i <? 0 then Panics
  else match nth_error l (Z.to_nat i) with
       | Some a => Ok a
       | None => Panics
       end.

Definition len {A : Type} (l : list A) : Z := Z.of_nat (List.length l).

(** ** Package [regexp], as far as the assertion resolver needs it

    [handleStep] compiles a pattern that has the assertion target pasted in
    and asks for its submatches.  The model covers this fragment of the
    syntax [regexp.MustCompile] accepts: ASCII literals, [.], a greedy [*]
    on a one-character expression, [^], [$], capturing parentheses and [|].
    Every other construct is reported as [Outside]; resource limits of the
    library are left out.  Matching is leftmost-first, the order Go
    documents for [FindStringSubmatch]. *)

Module Regexp.

Import GoStrings.

Inductive single : Type :=
| OneLit (c : ascii)   (* OpLiteral *)
| AnyCharNotNL.        (* OpAnyCharNotNL: [.] without the s flag *)

Inductive regex : Type :=
| EmptyMatch
| Char (s : single)
| Star (s : single)
| BeginText            (* [^] without the m flag *)
| EndText              (* [$] without the m flag *)
| Capture (n : nat) (r : regex)
| Concat (r1 r2 : regex)
| Alternate (r1 r2 : regex).

Inductive compiled : Type :=
| Prog (re : regex) (numCap : nat)
| BadPattern           (* [MustCompile] panics *)
| Outside.             (* syntax the model does not cover *)

(** *** Parsing: one left-to-right pass over a stack of open groups *)

Record frame : Type := mkFrame
  { f_cap : nat;             (* index of the group this frame will close *)
    f_alts : list regex;     (* finished alternatives, latest first *)
    f_items : list regex }.  (* current concatenation, latest first *)

Record pstate : Type := mkPstate
  { ps_top : frame;
    ps_below : list frame;
    ps_numCap : nat;
    ps_lastRepeat : bool }.

Definition concat_of (items : list regex) : regex :=
  fold_right Concat EmptyMatch items.

Fixpoint alternate_of (first : regex) (others : list regex) : regex :=
  match others with
  | [] => first
  | r :: rs => Alternate first (alternate_of r rs)
  end.

Definition frame_regex (f : frame) : regex :=
  match rev (concat_of (rev (f_items f)) :: f_alts f) with
  | [] => EmptyMatch
  | r :: rs => alternate_of r rs
  end.

Definition push_item (r : regex) (p : pstate) : pstate :=
  let f := ps_top p in
  mkPstate (mkFrame (f_cap f) (f_alts f) (r :: f_items f))
           (ps_below p) (ps_numCap p) false.

Definition open_group (p : pstate) : pstate :=
  let n := S (ps_numCap p) in
  mkPstate (mkFrame n [] []) (ps_top p :: ps_below p) n false.

Definition vertical_bar (p : pstate) : pstate :=
  let f := ps_top p in
  mkPstate (mkFrame (f_cap f) (concat_of (rev (f_items f)) :: f_alts f) [])
           (ps_below p) (ps_numCap p) false.

Definition is_ascii (c : ascii) : bool := (nat_of_ascii c <? 128)%nat.

Definition is_meta (c : ascii) : bool :=
  existsb (Ascii.eqb c)
    ["092"; "."; "+"; "*"; "?"; "("; ")"; "|"; "["; "{"; "^"; "$"]%char.

Fixpoint parse (t : string) (p : pstate) : compiled :=
  match t with
  | EmptyString =>
      match ps_below p with
      | [] => Prog (frame_regex (ps_top p)) (ps_numCap p)
      | _ :: _ => BadPattern                       (* missing [)] *)
      end
  | String c t' =>
      if Ascii.eqb c "(" then parse t' (open_group p)
      else if Ascii.eqb c ")" then
        match ps_below p with
        | [] => BadPattern                          (* unexpected [)] *)
        | f :: fs =>
            let g := Capture (f_cap (ps_top p)) (frame_regex (ps_top p)) in
            parse t' (push_item g (mkPstate f fs (ps_numCap p) false))
        end
      else if Ascii.eqb c "|" then parse t' (vertical_bar p)
      else if Ascii.eqb c "^" then parse t' (push_item BeginText p)
      else if Ascii.eqb c "$" then parse t' (push_item EndText p)
      else if Ascii.eqb c "." then parse t' (push_item (Char AnyCharNotNL) p)
      else if Ascii.eqb c "*" then
        if ps_lastRepeat p then BadPattern          (* stacked repetition *)
        else
          let f := ps_top p in
          match f_items f with
          | [] => BadPattern                        (* nothing to repeat *)
          | Char s :: rest =>
              parse t' (mkPstate (mkFrame (f_cap f) (f_alts f) (Star s :: rest))
                                 (ps_below p) (ps_numCap p) true)
          | _ :: _ => Outside
          end
      else if is_meta c || negb (is_ascii c) then Outside
      else parse t' (push_item (Char (OneLit c)) p)
  end.

Definition Compile (pattern : string) : compiled :=
  parse pattern (mkPstate (mkFrame 0 [] []) [] 0 false).

(** *** Matching: backtracking with a continuation

    Positions are byte offsets into the text; [caps] records the span of
    every group closed on the current path, latest first. *)

Definition caps : Type := list (nat * (nat * nat)).

Definition cont : Type := nat -> string -> caps -> option caps.

Definition accepts (s : single) (a : ascii) : bool :=
  match s with
  | OneLit c => Ascii.eqb a c
  | AnyCharNotNL => negb (Ascii.eqb a newline)
  end.

Fixpoint star (s : single) (rest : string) (i : nat) (c : caps) (k : cont)
  : option caps :=
  match rest with
  | EmptyString => k i rest c
  | String a rest' =>
      if accepts s a then
        match star s rest' (S i) c k with
        | Some r => Some r
        | None => k i rest c
        end
      else k i rest c
  end.

Fixpoint matchk (r : regex) (i : nat) (rest : string) (c : caps) (k : cont)
  : option caps :=
  match r with
  | EmptyMatch => k i rest c
  | Char s =>
      match rest with
      | EmptyString => None
      | String a rest' => if accepts s a then k (S i) rest' c else None
      end
  | Star s => star s rest i c k
  | BeginText => if (i =? 0)%nat then k i rest c else None
  | EndText =>
      match rest with
      | EmptyString => k i rest c
      | String _ _ => None
      end
  | Capture n r1 => matchk r1 i rest c (fun j rest' c' => k j rest' ((n, (i, j)) :: c'))
  | Concat r1 r2 => matchk r1 i rest c (fun j rest' c' => matchk r2 j rest' c' k)
  | Alternate r1 r2 =>
      match matchk r1 i rest c k with
      | Some r => Some r
      | None => matchk r2 i rest c k
      end
  end.

Definition whole (i : nat) : cont := fun j _ c => Some ((0%nat, (i, j)) :: c).

(** The unanchored search tries every start offset from the left. *)
Fixpoint search (re : regex) (i : nat) (rest : string) : option caps :=
  match matchk re i rest [] (whole i) with
  | Some c => Some c
  | None =>
      match rest with
      | EmptyString => None
      | String _ rest' => search re (S i) rest'
      end
  end.

Fixpoint span_of (g : nat) (c : caps) : option (nat * nat) :=
  match c with
  | [] => None
  | (n, sp) :: c' => if (n =? g)%nat then Some sp else span_of g c'
  end.

Definition group_text (s : string) (c : caps) (g : nat) : string :=
  match span_of g c with
  | Some (b, e) => substring b (e - b) s
  | None => EmptyString
  end.

(** [re.FindStringSubmatch(s)]: nil when nothing matches, else the whole
    match followed by one string per group, empty for a group not taken. *)
Definition FindStringSubmatch (re : regex) (numCap : nat) (s : string)
  : list string :=
  match search re 0 s with
  | None => []
  | Some c => map (group_text s c) (seq 0 (S numCap))
  end.

End Regexp.

(** ** Running a command in a pod *)

Import GoStrings.

(** What [exec.Command("kubectl", "exec", name, "-t", "--", "bash", "-c",
    script)] is started with, and the timeout it runs under. *)
Record invocation : Type := mkInvocation
  { inv_pod : string; inv_script : string; inv_timeout : Z }.

(** What the started process does, seen from the calling goroutine: its
    standard output, and whether the [time.AfterFunc] callback has set
    [timeout_reached] by the time the flag is read. *)
Record process : Type := mkProcess
  { proc_stdout : string; proc_timer_fired : bool }.

Definition envString (env : list string) : string :=
  let s := fold_left (fun acc e => (acc ++ e ++ " ")%string) env EmptyString in
  if String.eqb s EmptyString then s else (s ++ "&& ")%string.

Definition command_for (name cmdToRun : string) (env : list string) (timeout : Z)
  : invocation :=
  mkInvocation name (envString env ++ cmdToRun)%string timeout.

(** [timeout_reached] when the goroutine reads it: the timer exists only
    for a non-zero timeout. *)
Definition timeout_reached (timeout : Z) (p : process) : bool :=
  if timeout =? 0 then false else proc_timer_fired p.

(** What a goroutine puts on the two channels of [handleStep]. *)
Inductive send : Type :=
| OnStrings (lines : list string)   (* [chanStrings <- lines] *)
| OnTimeout (flag : bool).          (* [chanTimeout <- timeout_reached] *)

(** [runInPodAsync]: the sends of its goroutine, in program order.  The
    lines go out unchanged, then the flag, then the lines once more from
    the deferred function. *)
Definition runInPodAsync (timeout : Z) (p : process) : list send :=
  let lines := Split (proc_stdout p) newline in
  [OnStrings lines; OnTimeout (timeout_reached timeout p); OnStrings lines].

(** [runInPod], the synchronous sibling: it returns [lines[:len(lines)-1]]
    and the flag. *)
Definition runInPod (timeout : Z) (p : process) : list string * bool :=
  let lines := Split (proc_stdout p) newline in
  (drop_last lines, timeout_reached timeout p).

Definition sent_strings (sends : list send) : list (list string) :=
  flat_map (fun m => match m with OnStrings l => [l] | OnTimeout _ => [] end) sends.

Definition sent_flags (sends : list send) : list bool :=
  flat_map (fun m => match m with OnStrings _ => [] | OnTimeout b => [b] end) sends.

(** ** [handleStep] *)

(** One iteration's pair of receives, [<-outputStrings] and [<-outputErr],
    with the answer [os.OpenFile] gives should the iteration ask. *)
Record received : Type := mkReceived
  { rc_out : list string; rc_err : bool; rc_open_ok : bool }.

(** Everything [handleStep] reads and writes besides its arguments: the
    summary behind the pointer, the environment slice, the chunks appended
    to files and the commands launched. *)
Record exec : Type := mkExec
  { ex_summary : Summary.t;
    ex_env : list string;
    ex_files : list (string * string);
    ex_launched : list invocation }.

Definition set_summary (st : exec) (s : Summary.t) : exec :=
  mkExec s (ex_env st) (ex_files st) (ex_launched st).

Definition add_timeout (s : Summary.t) : Summary.t :=
  Summary.mk (Summary.Successes s) (Summary.Failures s) (Summary.TestsToRun s)
             (Summary.TestsRan s) (GoInt.add (Summary.Timeouts s) 1).

Definition add_failure (s : Summary.t) : Summary.t :=
  Summary.mk (Summary.Successes s) (GoInt.add (Summary.Failures s) 1)
             (Summary.TestsToRun s) (Summary.TestsRan s) (Summary.Timeouts s).

Definition add_success (s : Summary.t) : Summary.t :=
  Summary.mk (GoInt.add (Summary.Successes s) 1) (Summary.Failures s)
             (Summary.TestsToRun s) (Summary.TestsRan s) (Summary.Timeouts s).

(** The node indices a [for j := OnNode; j <= endNode; j++] loop visits. *)
Definition node_range (onNode endNode : Z) : list Z :=
  map (fun k => onNode + Z.of_nat k) (seq 0 (Z.to_nat (endNode - onNode + 1))).

(** The dispatch loop (lines 188-191). *)
Fixpoint dispatch (pods : GetPodsOutput.t) (step : Step.t) (env : list string)
    (js : list Z) : outcome (list invocation) :=
  match js with
  | [] => Ok []
  | _ :: js' =>
      pod <- elem_at (GetPodsOutput.Items pods) (GoInt.sub (Step.OnNode step) 1) ;;
      rest <- dispatch pods step env js' ;;
      Ok (command_for (Pod.MetadataName pod) (Step.CMD step) env
                      (Step.Timeout step) :: rest)
  end.

(** An environment entry as line 217 builds it: the name, an equals sign,
    and the captured line between two double quotes. *)
Definition binding (name value : string) : string :=
  (name ++ "=" ++ str1 dquote ++ value ++ str1 dquote)%string.

(** The loop over [step.Outputs] (lines 210-218); [idx] is the range index. *)
Fixpoint save_outputs (outputs : list Output.t) (idx : Z) (out env : list string)
  : list string :=
  match outputs with
  | [] => env
  | output :: outputs' =>
      if idx >=? len out then env
      else
        match nth_error out (Z.to_nat idx) with
        | Some line =>
            save_outputs outputs' (idx + 1) out
                         (env ++ [binding (Output.SaveTo output) line])
        | None => env
        end
  end.

(** The pattern of lines 233-234: a caret, the target as it stands, an
    equals sign, a double quote, a group of dot-star, a double quote and a
    dollar. *)
Definition pattern_for (target : string) : string :=
  ("^" ++ target ++ "=" ++ str1 dquote ++ "(" ++ ".*" ++ ")" ++ str1 dquote
   ++ "$")%string.

(** The scan of the environment (lines 227-240): [value] when the loop ends. *)
Fixpoint find_value (target : string) (env : list string) : outcome string :=
  match env with
  | [] => Ok EmptyString
  | e :: env' =>
      match Regexp.Compile (pattern_for target) with
      | Regexp.BadPattern => Panics
      | Regexp.Outside => NotModelled
      | Regexp.Prog re numCap =>
          let found := Regexp.FindStringSubmatch re numCap e in
          let found1 := nth 1 found EmptyString in
          if (len found =? 2) && negb (String.eqb found1 EmptyString)
          then Ok found1
          else find_value target env'
      end
  end.

(** The assertion resolver (lines 227-245). *)
Definition resolve (target : string) (env : list string) : outcome string :=
  value <- find_value target env ;;
  Ok (if String.eqb value EmptyString then target else value).

(** The loop over [step.Assertions] (lines 221-257). *)
Fixpoint check_assertions (assertions : list Assertion.t) (out env : list string)
    (s : Summary.t) : outcome Summary.t :=
  match assertions with
  | [] => Ok s
  | assertion :: assertions' =>
      if Assertion.Line assertion >=? len out then Ok s
      else
        lineToAssert <- elem_at out (Assertion.Line assertion) ;;
        value <- resolve (Assertion.ShouldBeEqualTo assertion) env ;;
        check_assertions assertions' out env
          (if String.eqb lineToAssert value then add_success s else add_failure s)
  end.

(** The body of the collecting loop (lines 195-258) for one pair. *)
Definition handle_result (step : Step.t) (r : received) (st : exec) : outcome exec :=
  if rc_err r then Ok (set_summary st (add_timeout (ex_summary st)))
  else
    let files :=
      if negb (String.eqb (Step.WriteToFile step) EmptyString) && rc_open_ok r
      then ex_files st ++ [(Step.WriteToFile step, Join (rc_out r) (str1 newline))]
      else ex_files st in
    let env := save_outputs (Step.Outputs step) 0 (rc_out r) (ex_env st) in
    s <- check_assertions (Step.Assertions step) (rc_out r) env (ex_summary st) ;;
    Ok (mkExec s env files (ex_launched st)).

(** The collecting loop (lines 194-259): one pair per visited index. *)
Fixpoint collect (step : Step.t) (js : list Z) (rs : list received) (st : exec)
  : outcome exec :=
  match js with
  | [] => Ok st
  | _ :: js' =>
      match rs with
      | [] => Blocks
      | r :: rs' =>
          st' <- handle_result step r st ;;
          collect step js' rs' st'
      end
  end.

(** [handleStep(pods, step, summary, env)]; [rs] is what the two channels
    deliver, in the order the loop receives it.  [make(chan, numNodes)]
    panics on a negative size; the model puts no bound on memory, so a
    size too large for the allocator is not told apart. *)
Definition handleStep (pods : GetPodsOutput.t) (step : Step.t)
    (rs : list received) (st : exec) : outcome exec :=
  let endNode := Step.EndNode step in
  let numNodes := GoInt.add (GoInt.sub endNode (Step.OnNode step)) 1 in
  if numNodes <? 0 then Panics
  else
    let js := node_range (Step.OnNode step) endNode in
    launched <- dispatch pods step (ex_env st) js ;;
    collect step js rs
      (mkExec (ex_summary st) (ex_env st) (ex_files st)
              (ex_launched st ++ launched)).

(** ** [evaluateOutcome] and [main] *)

Definition evaluateOutcome (summary : Summary.t) (expected : Expected.t) : Z :=
  if negb (Summary.Successes summary =? Expected.Successes expected)
     || negb (Summary.Failures summary =? Expected.Failures expected)
     || negb (Summary.Timeouts summary =? Expected.Timeouts expected)
  then 1
  else 0.

(** Lines 158-160: an unset [end_node] means the single node [on_node]. *)
Definition default_EndNode (step : Step.t) : Step.t :=
  if Step.EndNode step =? 0 then Step.with_EndNode step (Step.OnNode step)
  else step.

(** One call of [handleStep] as [main] makes it. *)
Record call : Type := mkCall
  { call_step : Step.t; call_env : list string; call_result : outcome exec }.

(** The loop over [test.Steps] (lines 157-162): the calls made, in order,
    and how the loop ends.  [results] holds, per step, what the channels
    deliver. *)
Fixpoint run_steps (pods : GetPodsOutput.t) (steps : list Step.t)
    (results : list (list received)) (st : exec) : list call * outcome exec :=
  match steps with
  | [] => ([], Ok st)
  | step0 :: steps' =>
      let step := default_EndNode step0 in
      let res := handleStep pods step (hd [] results) st in
      let c := mkCall step (ex_env st) res in
      match res with
      | Ok st' =>
          let (cs, o) := run_steps pods steps' (tl results) st' in
          (c :: cs, o)
      | Panics => ([c], Panics)
      | Blocks => ([c], Blocks)
      | NotModelled => ([c], NotModelled)
      end
  end.

(** How a call of [scaleTo] ends. *)
Inductive scaling : Type :=
| Scaled          (* returns nil *)
| ScaleFails      (* returns an error *)
| NeverReady.     (* polls for ever *)

(** What the cluster answers during one repetition: [getRunningPods] (or
    an error), how [scaleTo] ends when called, [getPods] (or an error,
    which [main] drops, keeping a nil pointer), and the channel traffic of
    each step. *)
Record repetition : Type := mkRepetition
  { rep_running : option Z;
    rep_scale : scaling;
    rep_pods : option GetPodsOutput.t;
    rep_results : list (list received) }.

Inductive ending : Type :=
| Exit (code : Z)      (* [os.Exit] *)
| Crash                (* panic *)
| Hang                 (* blocked for ever *)
| Unknown.             (* left the regexp fragment *)

(** The state [main] carries from one repetition to the next. *)
Record shared : Type := mkShared
  { sh_summary : Summary.t;
    sh_files : list (string * string);
    sh_launched : list invocation }.

Definition ran_one (s : Summary.t) : Summary.t :=
  Summary.mk (Summary.Successes s) (Summary.Failures s) (Summary.TestsToRun s)
             (GoInt.add (Summary.TestsRan s) 1) (Summary.Timeouts s).

(** The steps of one repetition, from line 154 on, with a fresh [env]. *)
Definition run_body (test : Test.t) (w : repetition) (sh : shared)
  : list call * (shared + ending) :=
  let env := @nil string in
  match Test.Steps test, rep_pods w with
  | [], _ =>
      ([], inl (mkShared (ran_one (sh_summary sh)) (sh_files sh) (sh_launched sh)))
  | _ :: _, None => ([], inr Crash)
  | _ :: _, Some pods =>
      let (cs, o) :=
        run_steps pods (Test.Steps test) (rep_results w)
                  (mkExec (sh_summary sh) env (sh_files sh) (sh_launched sh)) in
      match o with
      | Ok st =>
          (cs, inl (mkShared (ran_one (ex_summary st)) (ex_files st)
                             (ex_launched st)))
      | Panics => (cs, inr Crash)
      | Blocks => (cs, inr Hang)
      | NotModelled => (cs, inr Unknown)
      end
  end.

(** The body of the loop over repetitions (lines 134-163). *)
Definition run_repetition (test : Test.t) (w : repetition) (sh : shared)
  : list call * (shared + ending) :=
  match rep_running w with
  | None => ([], inr (Exit 1))
  | Some running_nodes =>
      if Config.Nodes (Test.Config test) >? running_nodes then
        match rep_scale w with
        | Scaled => run_body test w sh
        | ScaleFails => ([], inr (Exit 1))
        | NeverReady => ([], inr Hang)
        end
      else run_body test w sh
  end.

(** [for i := 0; i < test.Config.Times; i++] over the cluster's answers;
    a repetition the list has no answers for finds no pods running. *)
Fixpoint run_repetitions (test : Test.t) (times : nat) (ws : list repetition)
    (sh : shared) : list (list call) * (shared + ending) :=
  match times with
  | O => ([], inl sh)
  | S times' =>
      let w := hd (mkRepetition None ScaleFails None []) ws in
      let (cs, o) := run_repetition test w sh in
      match o with
      | inl sh' =>
          let (css, o') := run_repetitions test times' (tl ws) sh' in
          (cs :: css, o')
      | inr e => ([cs], inr e)
      end
  end.

(** [main] from line 130 on: the calls of each repetition and the way the
    process ends. *)
Definition main (test : Test.t) (ws : list repetition)
  : list (list call) * ending :=
  let summary :=
    Summary.mk 0 0 (Config.Times (Test.Config test)) 0 0 in
  let (css, o) :=
    run_repetitions test (Z.to_nat (Config.Times (Test.Config test))) ws
                    (mkShared summary [] []) in
  match o with
  | inl sh => (css, Exit (evaluateOutcome (sh_summary sh)
                                          (Config.Expected (Test.Config test))))
  | inr e => (css, e)
  end.

(** ** Vocabulary of the statements *)

Fixpoint all_chars (p : ascii -> bool) (s : string) : bool :=
  match s with
  | EmptyString => true
  | String c s' => p c && all_chars p s'
  end.

(** A character the pattern syntax reads as itself. *)
Definition is_plain (c : ascii) : bool :=
  Regexp.is_ascii c && negb (Regexp.is_meta c).

Definition plain (s : string) : bool := all_chars is_plain s.
Definition no_equals (s : string) : bool :=
  all_chars (fun c => negb (Ascii.eqb c "=")) s.
Definition no_newline (s : string) : bool :=
  all_chars (fun c => negb (Ascii.eqb c newline)) s.

(** The rest of [s] after the prefix [t], if [s] starts with [t]. *)
Fixpoint strip_prefix (t s : string) : option string :=
  match t with
  | EmptyString => Some s
  | String c t' =>
      match s with
      | EmptyString => None
      | String a s' => if Ascii.eqb a c then strip_prefix t' s' else None
      end
  end.

(** [Some w] when [r] is [w] followed by one closing double quote and [w]
    stays on one line. *)
Fixpoint quoted_tail (r : string) : option string :=
  match r with
  | EmptyString => None
  | String a r' =>
      if Ascii.eqb a newline then None
      else
        match quoted_tail r' with
        | Some w => Some (String a w)
        | None =>
            match r' with
            | EmptyString => if Ascii.eqb a dquote then Some EmptyString else None
            | String _ _ => None
            end
        end
  end.

(** The text an entry holds for [t]: the entry is [t], an equals sign and
    a quoted one-line text. *)
Definition entry_value (t e : string) : option string :=
  match strip_prefix t e with
  | Some (String a (String b r)) =>
      if Ascii.eqb a "=" && Ascii.eqb b dquote then quoted_tail r else None
  | _ => None
  end.

(** The resolver as section 4.2 of the specification words it, over
    bindings as (name, value) pairs: the value of the first binding named
    [target] with a non-empty value, else [target] itself. *)
Fixpoint resolve_spec (target : string) (bindings : list (string * string))
  : string :=
  match bindings with
  | [] => target
  | (name, value) :: rest =>
      if String.eqb name target && negb (String.eqb value EmptyString)
      then value
      else resolve_spec target rest
  end.

Definition serialize (bindings : list (string * string)) : list string :=
  map (fun b => binding (fst b) (snd b)) bindings.

(** The dispatch the specification describes: index [j] runs on the handle
    at 1-based position [j]. *)
Fixpoint dispatch_spec (pods : GetPodsOutput.t) (step : Step.t)
    (env : list string) (js : list Z) : outcome (list invocation) :=
  match js with
  | [] => Ok []
  | j :: js' =>
      pod <- elem_at (GetPodsOutput.Items pods) (GoInt.sub j 1) ;;
      rest <- dispatch_spec pods step env js' ;;
      Ok (command_for (Pod.MetadataName pod) (Step.CMD step) env
                      (Step.Timeout step) :: rest)
  end.

(** The output bindings the specification describes: each binding reads
    the line at its declared index, and the first index out of bounds ends
    the loop. *)
Fixpoint save_outputs_spec (outputs : list Output.t) (out env : list string)
  : list string :=
  match outputs with
  | [] => env
  | output :: outputs' =>
      if (Output.Line output <? 0) || (Output.Line output >=? len out) then env
      else
        match nth_error out (Z.to_nat (Output.Line output)) with
        | Some line =>
            save_outputs_spec outputs' out
                              (env ++ [binding (Output.SaveTo output) line])
        | None => env
        end
  end.

(** The calls of one repetition hand the environment on: the first call
    gets [env], every later call gets what the call before it returned. *)
Fixpoint threaded (env : list string) (cs : list call) : Prop :=
  match cs with
  | [] => True
  | c :: cs' =>
      call_env c = env /\
      match cs' with
      | [] => True
      | _ :: _ => exists st, call_result c = Ok st /\ threaded (ex_env st) cs'
      end
  end.

(** *** For targets without metacharacters *)

(** The expression the pattern of a plain target compiles to. *)
Fixpoint lits (t : string) : list Regexp.regex :=
  match t with
  | EmptyString => []
  | String c t' => Regexp.Char (Regexp.OneLit c) :: lits t'
  end.

Definition binding_tail : list Regexp.regex :=
  [Regexp.Char (Regexp.OneLit "=");
   Regexp.Char (Regexp.OneLit dquote);
   Regexp.Capture 1 (Regexp.concat_of [Regexp.Star Regexp.AnyCharNotNL]);
   Regexp.Char (Regexp.OneLit dquote);
   Regexp.EndText].

Definition plain_regex (t : string) : Regexp.regex :=
  Regexp.concat_of (Regexp.BeginText :: lits t ++ binding_tail).

(** The spans a match of [plain_regex t] records when the quoted text is
    [w]: the whole entry, then the text between the quotes. *)
Definition plain_spans (t w : string) : Regexp.caps :=
  [(0%nat, (0%nat, S (S (S (String.length t)) + String.length w)));
   (1%nat, (S (S (String.length t)), (S (S (String.length t)) + String.length w)%nat))].

Fixpoint push_lits (t : string) (p : Regexp.pstate) : Regexp.pstate :=
  match t with
  | EmptyString => p
  | String c t' => push_lits t' (Regexp.push_item (Regexp.Char (Regexp.OneLit c)) p)
  end.

(** The value the scan of lines 231-240 ends with, for a plain target. *)
Fixpoint first_value (t : string) (env : list string) : string :=
  match env with
  | [] => EmptyString
  | e :: env' =>
      match entry_value t e with
      | Some w => if String.eqb w EmptyString then first_value t env' else w
      | None => first_value t env'
      end
  end.

(** ** Sample inputs *)

(** Scenario 1 of the specification: one step on one node asserting a
    literal, against a pod that prints that literal and a newline. *)
Definition scenario_1 : Test.t :=
  Test.mk "literal"
    (Config.mk 1 "app=ipfs" 1 0 (Expected.mk 1 0 0))
    [Step.mk "say ok" 1 0 "echo ok" 0 [] [] [Assertion.mk 0 "ok"] EmptyString].

Definition one_pod : GetPodsOutput.t := GetPodsOutput.mk [Pod.mk "ipfs-0" "Running"].

Definition scenario_1_cluster : list repetition :=
  [mkRepetition (Some 1) Scaled (Some one_pod) [[mkReceived ["ok"; EmptyString] false true]]].

(** Scenario 2: the first step saves line 0 as HASH, the second asserts
    line 0 against the name HASH. *)
Definition scenario_2 : Test.t :=
  Test.mk "variable"
    (Config.mk 1 "app=ipfs" 1 0 (Expected.mk 1 0 0))
    [Step.mk "add" 1 0 "ipfs add -q" 0 [Output.mk 0 "HASH" EmptyString] [] []
             EmptyString;
     Step.mk "check" 1 0 "ipfs pin ls -q" 0 [] [] [Assertion.mk 0 "HASH"]
             EmptyString].

Definition scenario_2_cluster : list repetition :=
  [mkRepetition (Some 1) Scaled (Some one_pod)
     [[mkReceived ["abc123"; EmptyString] false true];
      [mkReceived ["abc123"; EmptyString] false true]]].

Definition two_pods : GetPodsOutput.t :=
  GetPodsOutput.mk [Pod.mk "ipfs-0" "Running"; Pod.mk "ipfs-1" "Running"].

Definition step_on_1_to_2 : Step.t :=
  Step.mk "peers" 1 2 "id" 0 [] [] [] EmptyString.

Definition step_saving_line_1 : Step.t :=
  Step.mk "add" 1 1 "ipfs add -q" 0 [Output.mk 1 "HASH" EmptyString] [] []
          EmptyString.

(** Scenario 3: a step on nodes 1 to 3 under a one-second timeout, all
    three results timed out. *)
Definition three_pods : GetPodsOutput.t :=
  GetPodsOutput.mk [Pod.mk "ipfs-0" "Running"; Pod.mk "ipfs-1" "Running";
                    Pod.mk "ipfs-2" "Running"].

Definition scenario_3 : Test.t :=
  Test.mk "sleepers"
    (Config.mk 3 "app=ipfs" 1 0 (Expected.mk 0 0 3))
    [Step.mk "sleep" 1 3 "sleep 5; echo ok" 1 [] [] [Assertion.mk 0 "ok"]
             EmptyString].

Definition scenario_3_cluster : list repetition :=
  [mkRepetition (Some 3) Scaled (Some three_pods)
     [[mkReceived [EmptyString] true true; mkReceived [EmptyString] true true;
       mkReceived [EmptyString] true true]]].

(** Scenario 5: five repetitions of two passing assertions each. *)
Definition scenario_5 : Test.t :=
  Test.mk "repeat"
    (Config.mk 1 "app=ipfs" 5 0 (Expected.mk 10 0 0))
    [Step.mk "two lines" 1 0 "cat two-lines.txt" 0 [] []
             [Assertion.mk 0 "a"; Assertion.mk 1 "b"] EmptyString].

Definition scenario_5_cluster : list repetition :=
  repeat (mkRepetition (Some 1) Scaled (Some one_pod)
            [[mkReceived ["a"; "b"; EmptyString] false true]]) 5.

Definition start : exec := mkExec Summary.zero [] [] [].

Definition quiet : received := mkReceived [EmptyString] false true.

Definition timed_out_pair : received := mkReceived ["partial"] true true.

(** A step whose second assertion names line 1 and expects the empty text. *)
Definition step_asserting_line_1 : Step.t :=
  Step.mk "say ok" 1 1 "echo ok" 0 [] []
          [Assertion.mk 0 "ok"; Assertion.mk 1 EmptyString] EmptyString.

Definition step_without_EndNode : Step.t :=
  Step.mk "add" 3 0 "ipfs add -q" 0 [] [] [] EmptyString.

Definition hash_entry : string := binding "HASH" "abc123".

(** Bindings outside the side conditions of the first-match reading: a
    name with an equals sign and a quote inside, and a value of two
    lines. *)
Definition odd_name : string := ("A=" ++ str1 dquote ++ "B")%string.
Definition two_lines : string := ("x" ++ str1 newline ++ "y")%string.

(** ** The rest of [main.go] *)

(** *** [getRunningPods] and [scaleTo] *)

(** The loop of lines 291-296, with its counter. *)
Fixpoint count_running (items : list Pod.t) (current_number_running : Z) : Z :=
  match items with
  | [] => current_number_running
  | pod :: rest =>
      count_running rest
        (if String.eqb (Pod.StatusPhase pod) "Running"
         then GoInt.add current_number_running 1
         else current_number_running)
  end.

(** [getRunningPods] over the answer of its [getPods] call: [None] stands
    for the error, which is passed on. *)
Definition getRunningPods (answer : option GetPodsOutput.t) : option Z :=
  match answer with
  | None => None
  | Some pods => Some (count_running (GetPodsOutput.Items pods) 0)
  end.

(** The loop of lines 313-320 over the answers of the successive
    [getPods] calls: how it ends, and how many times it slept its three
    seconds.  A list that runs out while the loop still waits stands for a
    cluster that never gets there. *)
Fixpoint wait_running (number number_running : Z)
    (polls : list (option GetPodsOutput.t)) : scaling * nat :=
  if number_running <? number then
    match polls with
    | [] => (NeverReady, O)
    | answer :: rest =>
        match getRunningPods answer with
        | None => (ScaleFails, O)
        | Some n => let (e, sleeps) := wait_running number n rest in (e, S sleeps)
        end
    end
  else (Scaled, O).

Definition DEPLOYMENT_NAME : string := "go-ipfs-stress".

(** [strconv.FormatInt(i, 10)], which is also [strconv.Itoa]. *)
Definition FormatInt (i : Z) : string :=
  DecimalString.NilZero.string_of_int (Z.to_int i).

(** The arguments of the [kubectl scale] call of line 304. *)
Definition scale_argv (cfg : Config.t) : list string :=
  ["kubectl"; "scale"; ("--replicas=" ++ FormatInt (Config.Nodes cfg))%string;
   ("deployment/" ++ DEPLOYMENT_NAME)%string].

(** [scaleTo]: [scale_ok] tells whether the [kubectl scale] call succeeds. *)
Definition scaleTo (cfg : Config.t) (scale_ok : bool)
    (polls : list (option GetPodsOutput.t)) : scaling * nat :=
  if scale_ok then wait_running (Config.Nodes cfg) 0 polls else (ScaleFails, O).

(** *** [unixToStr] and [printSummary] *)

Definition unixToStr (i : Z) : string := (FormatInt i ++ "000")%string.

(** [strings.Replace(s, old, "", -1)] for a one-byte [old]. *)
Fixpoint remove_all (s : string) (old : ascii) : string :=
  match s with
  | EmptyString => EmptyString
  | String c s' =>
      if Ascii.eqb c old then remove_all s' old else String c (remove_all s' old)
  end.

Definition quote : ascii := "039"%char.

(** What [printSummary] reads besides the counters: the two time stamps,
    as [String] and [Unix] give them, and what the two [kubectl get] calls
    wrote and returned. *)
Record stamps : Type := mkStamps
  { Start_String : string; End_String : string; Start_Unix : Z; End_Unix : Z }.

Record grafana : Type := mkGrafana
  { port_out : string; address_out : string; address_fails : bool }.

(** Lines 449-453. *)
Definition metricsLink (t : stamps) (g : grafana) : string :=
  let address := remove_all (address_out g) quote in
  let port := remove_all (port_out g) quote in
  ("http://" ++ address ++ ":" ++ port
   ++ "/dashboard/db/kubernetes-pod-resources?from=" ++ unixToStr (Start_Unix t)
   ++ "&to=" ++ unixToStr (End_Unix t))%string.

(** [printSummary]: the lines it prints. *)
Definition printSummary (summary : Summary.t) (t : stamps) (g : grafana)
  : list string :=
  let successes := FormatInt (Summary.Successes summary) in
  let failures := FormatInt (Summary.Failures summary) in
  let timeouts := FormatInt (Summary.Timeouts summary) in
  ["============================";
   "== Test Summary";
   "===============";
   "==";
   ("== Started: " ++ Start_String t)%string;
   ("== Ended: " ++ End_String t)%string;
   "==";
   ("== Successes: " ++ successes ++ "/" ++ failures ++ " (success/failure)")%string;
   ("== Timeouts: " ++ timeouts)%string]
  ++ (if address_fails g
      then ["=="; ("== Metrics: " ++ metricsLink t g)%string]
      else []).

(** *** Vocabulary of the further statements *)

Definition is_running (pod : Pod.t) : bool :=
  String.eqb (Pod.StatusPhase pod) "Running".

(** The text [envString] puts before the ampersands. *)
Fixpoint entries_text (env : list string) : string :=
  match env with
  | [] => EmptyString
  | e :: env' => (e ++ " " ++ entries_text env')%string
  end.

(** The assertions the loop of lines 221-257 gets to: those before the
    first whose line is not below the number of captured lines. *)
Fixpoint evaluated (assertions : list Assertion.t) (out : list string) : nat :=
  match assertions with
  | [] => O
  | a :: rest =>
      if Assertion.Line a >=? len out then O else S (evaluated rest out)
  end.

Definition no_quote (s : string) : bool :=
  all_chars (fun c => negb (Ascii.eqb c quote)) s.

(** The decimal number a text spells, if it spells one. *)
Definition read_decimal (s : string) : option Z :=
  option_map Z.of_int (DecimalString.NilZero.int_of_string s).

Definition three_zeros : Decimal.uint := Nat.iter 3 Decimal.D0 Decimal.Nil.

(** *** Further sample inputs *)

Definition mixed_pods : GetPodsOutput.t :=
  GetPodsOutput.mk [Pod.mk "ipfs-0" "Running"; Pod.mk "ipfs-1" "Pending";
                    Pod.mk "ipfs-2" "Running"].

Definition pending_pods : GetPodsOutput.t :=
  GetPodsOutput.mk [Pod.mk "ipfs-0" "Running"; Pod.mk "ipfs-1" "Pending"].

Definition config_of_two : Config.t :=
  Config.mk 2 "app=ipfs" 1 0 (Expected.mk 0 0 0).

Definition step_two_assertions : Step.t :=
  Step.mk "check" 1 1 "ipfs id" 0 [] []
          [Assertion.mk 0 "ok"; Assertion.mk 1 "no"; Assertion.mk 7 "far";
           Assertion.mk 0 "ok"] EmptyString.

Definition step_negative_line : Step.t :=
  Step.mk "check" 1 1 "ipfs id" 0 [] [] [Assertion.mk (-1) "ok"] EmptyString.

Definition step_backwards : Step.t :=
  Step.mk "peers" 5 2 "id" 0 [] [] [] EmptyString.

Definition step_just_below : Step.t :=
  Step.mk "peers" 3 2 "id" 0 [] [] [] EmptyString.

Definition step_without_OnNode : Step.t :=
  Step.mk "peers" 0 0 "id" 0 [] [] [] EmptyString.

Definition step_to_file : Step.t :=
  Step.mk "dump" 1 1 "ipfs id" 0 [] [] [] "out.txt".

Definition step_saving_two : Step.t :=
  Step.mk "add" 1 1 "ipfs add -q" 0
          [Output.mk 0 "HASH" EmptyString; Output.mk 0 "SIZE" EmptyString] [] []
          EmptyString.

(** * Properties *)

(** ** Facts about [int] *)

Lemma wrap_in_range (z : Z) : GoInt.in_range z -> GoInt.wrap z = z.
Proof.
  unfold GoInt.in_range, GoInt.min_int, GoInt.max_int, GoInt.wrap. intros H.
  rewrite Z.mod_small; lia.
Qed.

Lemma add_one_no_overflow (z : Z) :
  GoInt.min_int <= z -> z < GoInt.max_int -> GoInt.add z 1 = z + 1.
Proof.
  intros Hlo Hhi. unfold GoInt.add. apply wrap_in_range.
  unfold GoInt.in_range, GoInt.min_int, GoInt.max_int in *. lia.
Qed.

(** ** Facts about strings *)

Lemma append_assoc (a b c : string) : ((a ++ b) ++ c = a ++ (b ++ c))%string.
Proof. induction a as [|x a IH]; simpl; [reflexivity | now rewrite IH]. Qed.

Lemma length_append (a b : string) :
  String.length (a ++ b) = (String.length a + String.length b)%nat.
Proof. induction a as [|x a IH]; simpl; [reflexivity | now rewrite IH]. Qed.

Lemma Split_nonempty (s : string) (sep : ascii) : Split s sep <> [].
Proof.
  destruct s as [|c s]; simpl; [discriminate|].
  destruct (Ascii.eqb c sep); [discriminate|].
  destruct (Split s sep); discriminate.
Qed.

(** A text that ends with the separator splits into the pieces of the text
    before it and one more, empty, piece. *)
Lemma Split_trailing_sep (s : string) (sep : ascii) :
  Split (s ++ str1 sep) sep = Split s sep ++ [EmptyString].
Proof.
  induction s as [|c s IH]; simpl.
  - now rewrite Ascii.eqb_refl.
  - destruct (Ascii.eqb c sep).
    + now rewrite IH.
    + rewrite IH. destruct (Split s sep) as [|h t] eqn:E.
      * now destruct (Split_nonempty s sep).
      * reflexivity.
Qed.

(** No piece of a split contains the separator: captured lines stay on one
    line. *)
Lemma Split_no_newline (s : string) :
  Forall (fun l => no_newline l = true) (Split s newline).
Proof.
  induction s as [|c s IH]; simpl.
  - now repeat constructor.
  - destruct (Ascii.eqb c newline) eqn:Ec.
    + now constructor.
    + destruct (Split s newline) as [|h t] eqn:E;
        [now destruct (Split_nonempty s newline)|].
      inversion IH as [|? ? Hh Ht]; subst. constructor; [|exact Ht].
      unfold no_newline in *. simpl. now rewrite Ec.
Qed.

Lemma substring_whole (s : string) : substring 0 (String.length s) s = s.
Proof. induction s as [|a s IH]; simpl; [reflexivity | now rewrite IH]. Qed.

Lemma substring_prefix (b c : string) :
  substring 0 (String.length b) (b ++ c) = b.
Proof.
  induction b as [|x b IH]; simpl.
  - now destruct c.
  - now rewrite IH.
Qed.

Lemma substring_entry (t w : string) :
  substring (S (S (String.length t))) (String.length w)
            (t ++ "=" ++ str1 dquote ++ w ++ str1 dquote) = w.
Proof.
  induction t as [|c t IH]; simpl; [apply substring_prefix | exact IH].
Qed.

Lemma strip_prefix_sound (t : string) :
  forall s r, strip_prefix t s = Some r -> s = (t ++ r)%string.
Proof.
  induction t as [|c t IH]; simpl; intros s r H.
  - now injection H as <-.
  - destruct s as [|a s]; [discriminate|].
    destruct (Ascii.eqb_spec a c) as [->|]; [|discriminate].
    now rewrite (IH _ _ H).
Qed.

Lemma quoted_tail_sound (r : string) :
  forall w, quoted_tail r = Some w ->
            r = (w ++ str1 dquote)%string /\ no_newline w = true.
Proof.
  induction r as [|a r IH]; simpl; intros w H; [discriminate|].
  destruct (Ascii.eqb a newline) eqn:Ea; [discriminate|].
  destruct (quoted_tail r) as [w'|].
  - injection H as <-. destruct (IH w' eq_refl) as [-> Hw]. split; [reflexivity|].
    unfold no_newline. simpl. rewrite Ea. exact Hw.
  - destruct r; [|discriminate].
    destruct (Ascii.eqb_spec a dquote) as [->|]; [|discriminate].
    now injection H as <-.
Qed.

Lemma quoted_tail_complete (w : string) :
  no_newline w = true -> quoted_tail (w ++ str1 dquote) = Some w.
Proof.
  unfold no_newline. induction w as [|a w IH]; simpl; intros H; [reflexivity|].
  apply andb_true_iff in H as [Ha Hw]. apply negb_true_iff in Ha.
  now rewrite Ha, (IH Hw).
Qed.

Lemma entry_value_sound (t e w : string) :
  entry_value t e = Some w ->
  e = (t ++ "=" ++ str1 dquote ++ w ++ str1 dquote)%string /\ no_newline w = true.
Proof.
  unfold entry_value. intros H.
  destruct (strip_prefix t e) as [[|a [|b r]]|] eqn:Es; try discriminate.
  destruct (Ascii.eqb_spec a "=") as [->|]; [|discriminate].
  destruct (Ascii.eqb_spec b dquote) as [->|]; [|discriminate]. simpl in H.
  destruct (quoted_tail_sound _ _ H) as [-> Hw].
  split; [|exact Hw]. now apply strip_prefix_sound.
Qed.

(** When neither name holds an equals sign, an entry holds a text for [t]
    only if it was built for the name [t]. *)
Lemma entry_value_binding (t : string) :
  forall n v : string,
    no_equals t = true -> no_equals n = true ->
    entry_value t (binding n v)
    = if String.eqb n t then quoted_tail (v ++ str1 dquote) else None.
Proof.
  unfold no_equals, binding. induction t as [|c t IH]; intros n v Ht Hn.
  - destruct n as [|x n]; [reflexivity|].
    simpl in Hn. apply andb_true_iff in Hn as [Hx _]. apply negb_true_iff in Hx.
    unfold entry_value. simpl. destruct n; simpl; now rewrite Hx.
  - simpl in Ht. apply andb_true_iff in Ht as [Hc Ht]. apply negb_true_iff in Hc.
    destruct n as [|x n].
    + unfold entry_value. cbn [String.append strip_prefix].
      rewrite Ascii.eqb_sym, Hc. reflexivity.
    + simpl in Hn. apply andb_true_iff in Hn as [_ Hn].
      specialize (IH n v Ht Hn). unfold entry_value in *. simpl.
      destruct (Ascii.eqb x c); [exact IH | reflexivity].
Qed.

(** ** Lists *)

Lemma skipn_nth_error {A : Type} (l : list A) :
  forall (k : nat) (x : A), nth_error l k = Some x -> skipn k l = x :: skipn (S k) l.
Proof.
  induction l as [|a l IH]; intros [|k] x H; simpl in *; try discriminate.
  - now injection H as <-.
  - now apply IH.
Qed.

(** ** Output bindings *)

(** The output loop pairs the bindings with the captured lines by position:
    the i-th binding gets line i, whatever its [Line] says. *)
Lemma save_outputs_zip (outputs : list Output.t) (out : list string) :
  forall (k : nat) (env : list string),
    save_outputs outputs (Z.of_nat k) out env
    = env ++ map (fun ol => binding (Output.SaveTo (fst ol)) (snd ol))
                 (combine outputs (skipn k out)).
Proof.
  induction outputs as [|o outputs IH]; intros k env; simpl.
  - now rewrite app_nil_r.
  - unfold len. destruct (Z.geb_spec (Z.of_nat k) (Z.of_nat (List.length out))) as [Hge|Hlt].
    + rewrite skipn_all2 by lia. now rewrite app_nil_r.
    + rewrite Nat2Z.id. destruct (nth_error out k) as [line|] eqn:E.
      * rewrite (skipn_nth_error _ _ _ E). simpl.
        replace (Z.of_nat k + 1) with (Z.of_nat (S k)) by lia.
        rewrite IH, <- app_assoc. reflexivity.
      * apply nth_error_None in E. lia.
Qed.

(** ** Dispatch *)

(** Whatever the range, every command of a step goes to the pod at
    position [OnNode]. *)
Lemma dispatch_single_pod (pods : GetPodsOutput.t) (step : Step.t)
    (env : list string) (js : list Z) (invs : list invocation) :
  dispatch pods step env js = Ok invs ->
  Forall (fun inv =>
            outcome_map Pod.MetadataName
              (elem_at (GetPodsOutput.Items pods) (GoInt.sub (Step.OnNode step) 1))
            = Ok (inv_pod inv)) invs.
Proof.
  revert invs. induction js as [|j js IH]; simpl; intros invs H.
  - injection H as <-. constructor.
  - destruct (elem_at _ _) as [pod| | |] eqn:E; simpl in H; try discriminate.
    destruct (dispatch pods step env js) as [rest| | |]; simpl in H; try discriminate.
    injection H as <-. constructor; [reflexivity | now apply IH].
Qed.

(** ** The matcher on small patterns *)

Example compile_unbalanced_panics :
  Regexp.Compile (pattern_for "(") = Regexp.BadPattern
  /\ Regexp.Compile (pattern_for "a**") = Regexp.BadPattern
  /\ Regexp.Compile (pattern_for "[a-z]") = Regexp.Outside.
Proof. repeat split. Qed.

Example submatch_of_named_entry :
  match Regexp.Compile (pattern_for "HASH") with
  | Regexp.Prog re n => Regexp.FindStringSubmatch re n hash_entry
  | _ => []
  end = [hash_entry; "abc123"].
Proof. vm_compute. reflexivity. Qed.

Example no_submatch_inside_longer_name :
  match Regexp.Compile (pattern_for "ASH") with
  | Regexp.Prog re n => Regexp.FindStringSubmatch re n hash_entry
  | _ => [EmptyString]
  end = [].
Proof. vm_compute. reflexivity. Qed.

(** An alternative may match at a later offset, and a group the match
    does not go through reads as empty. *)
Example alternation_is_leftmost_first :
  match Regexp.Compile "b|(a)" with
  | Regexp.Prog re n =>
      (Regexp.FindStringSubmatch re n "xab", Regexp.FindStringSubmatch re n "xba")
  | _ => ([], [])
  end = (["a"; "a"], ["b"; EmptyString]).
Proof. vm_compute. reflexivity. Qed.

(** ** The pattern of a plain target *)

Lemma plain_char_tests (c : ascii) :
  is_plain c = true ->
  Regexp.is_ascii c = true /\ Regexp.is_meta c = false /\
  Ascii.eqb c "(" = false /\ Ascii.eqb c ")" = false /\ Ascii.eqb c "|" = false /\
  Ascii.eqb c "^" = false /\ Ascii.eqb c "$" = false /\ Ascii.eqb c "." = false /\
  Ascii.eqb c "*" = false.
Proof.
  unfold is_plain. intros H. apply andb_true_iff in H as [Ha Hm].
  apply negb_true_iff in Hm. split; [exact Ha|]. split; [exact Hm|].
  unfold Regexp.is_meta in Hm. simpl in Hm.
  repeat (apply orb_false_elim in Hm as [? Hm]). repeat split; assumption.
Qed.

Lemma parse_plain_char (c : ascii) (t : string) (p : Regexp.pstate) :
  is_plain c = true ->
  Regexp.parse (String c t) p
  = Regexp.parse t (Regexp.push_item (Regexp.Char (Regexp.OneLit c)) p).
Proof.
  intros H.
  destruct (plain_char_tests c H) as (Ha & Hm & H1 & H2 & H3 & H4 & H5 & H6 & H7).
  simpl. now rewrite H1, H2, H3, H4, H5, H6, H7, Hm, Ha.
Qed.

Lemma parse_plain (t rest : string) (p : Regexp.pstate) :
  plain t = true ->
  Regexp.parse (t ++ rest) p = Regexp.parse rest (push_lits t p).
Proof.
  revert p. induction t as [|c t IH]; intros p H; [reflexivity|].
  unfold plain in H. simpl in H. apply andb_true_iff in H as [Hc Ht].
  change (String c t ++ rest)%string with (String c (t ++ rest)).
  rewrite parse_plain_char by exact Hc. simpl. now apply IH.
Qed.

Lemma push_lits_items (t : string) (p : Regexp.pstate) :
  exists lr,
    push_lits t p
    = Regexp.mkPstate
        (Regexp.mkFrame (Regexp.f_cap (Regexp.ps_top p)) (Regexp.f_alts (Regexp.ps_top p))
                        (rev (lits t) ++ Regexp.f_items (Regexp.ps_top p)))
        (Regexp.ps_below p) (Regexp.ps_numCap p) lr.
Proof.
  revert p. induction t as [|c t IH]; intros p.
  - exists (Regexp.ps_lastRepeat p). destruct p as [[? ? ?] ? ? ?]. reflexivity.
  - simpl. destruct (IH (Regexp.push_item (Regexp.Char (Regexp.OneLit c)) p)) as [lr E].
    exists lr. rewrite E. simpl. now rewrite <- app_assoc.
Qed.

Lemma parse_binding_tail (items : list Regexp.regex) (lr : bool) :
  Regexp.parse ("=" ++ str1 dquote ++ "(" ++ ".*" ++ ")" ++ str1 dquote ++ "$")
               (Regexp.mkPstate (Regexp.mkFrame 0 [] items) [] 0 lr)
  = Regexp.Prog (Regexp.concat_of (rev items ++ binding_tail)) 1.
Proof.
  cbn. unfold Regexp.frame_regex. cbn. repeat rewrite <- app_assoc. reflexivity.
Qed.

Lemma star_any_quoted (k : Regexp.cont) (K : nat -> Regexp.caps -> option Regexp.caps) :
  (forall j r c, k j r c = if String.eqb r (str1 dquote) then K j c else None) ->
  forall (rest : string) (i : nat) (c : Regexp.caps),
    Regexp.star Regexp.AnyCharNotNL rest i c k
    = match quoted_tail rest with
      | Some w => K (i + String.length w)%nat c
      | None => None
      end.
Proof.
  intros Hk. induction rest as [|a r IH]; intros i c.
  - simpl. now rewrite Hk.
  - simpl. destruct (Ascii.eqb a newline) eqn:Ea.
    + simpl. rewrite Hk. simpl. apply Ascii.eqb_eq in Ea. subst a. reflexivity.
    + simpl. rewrite IH. destruct (quoted_tail r) as [w|] eqn:Eq.
      * simpl. rewrite Nat.add_succ_r.
        destruct (K (S (i + String.length w)) c) eqn:EK; [reflexivity|].
        rewrite Hk. simpl. destruct r as [|b r].
        -- discriminate Eq.
        -- now destruct (Ascii.eqb a dquote).
      * rewrite Hk. simpl. destruct r as [|b r].
        -- destruct (Ascii.eqb a dquote); simpl; [now rewrite Nat.add_0_r | reflexivity].
        -- now destruct (Ascii.eqb a dquote).
Qed.

Lemma matchk_binding_tail (i : nat) (rest : string) (c : Regexp.caps) (i0 : nat) :
  Regexp.matchk (Regexp.concat_of binding_tail) i rest c (Regexp.whole i0)
  = match rest with
    | String a (String b r) =>
        if Ascii.eqb a "=" && Ascii.eqb b dquote then
          match quoted_tail r with
          | Some w =>
              Some ((0%nat, (i0, S (S (S i) + String.length w)))
                    :: (1%nat, (S (S i), (S (S i) + String.length w)%nat)) :: c)
          | None => None
          end
        else None
    | _ => None
    end.
Proof.
  destruct rest as [|a [|b r]]; simpl.
  - reflexivity.
  - now destruct (Ascii.eqb a "=").
  - destruct (Ascii.eqb a "="); [|reflexivity].
    destruct (Ascii.eqb b dquote); [|reflexivity]. simpl.
    apply (star_any_quoted _
             (fun j c' => Some ((0%nat, (i0, S j)) :: (1%nat, (S (S i), j)) :: c'))).
    intros j r' c'. destruct r' as [|x [|y r']]; simpl.
    + reflexivity.
    + now destruct (Ascii.eqb x dquote).
    + now destruct (Ascii.eqb x dquote).
Qed.

Lemma search_anchored (r : Regexp.regex) (rest : string) :
  forall i : nat,
    i <> 0%nat -> Regexp.search (Regexp.Concat Regexp.BeginText r) i rest = None.
Proof.
  induction rest as [|a rest IH]; intros i Hi; simpl;
    destruct (Nat.eqb_spec i 0) as [E|_]; try contradiction; auto.
Qed.

Section PlainTarget.

Variable t : string.
Hypothesis t_plain : plain t = true.

Lemma Compile_plain : Regexp.Compile (pattern_for t) = Regexp.Prog (plain_regex t) 1.
Proof.
  unfold Regexp.Compile, pattern_for.
  change ("^" ++ t ++ ?r)%string with (String "^" (t ++ r)).
  cbn [Regexp.parse]. change (Ascii.eqb "^" "(") with false.
  change (Ascii.eqb "^" ")") with false. change (Ascii.eqb "^" "|") with false.
  change (Ascii.eqb "^" "^") with true. cbv iota.
  rewrite parse_plain by exact t_plain.
  destruct (push_lits_items t
              (Regexp.push_item Regexp.BeginText
                 (Regexp.mkPstate (Regexp.mkFrame 0 [] []) [] 0 false))) as [lr E].
  rewrite E. cbn [Regexp.push_item Regexp.ps_top Regexp.ps_below Regexp.ps_numCap
                  Regexp.f_cap Regexp.f_alts Regexp.f_items].
  rewrite parse_binding_tail. unfold plain_regex.
  rewrite rev_app_distr, rev_involutive. reflexivity.
Qed.

Lemma matchk_lits (s : string) (items : list Regexp.regex) :
  forall (i : nat) (rest : string) (c : Regexp.caps) (k : Regexp.cont),
    Regexp.matchk (Regexp.concat_of (lits s ++ items)) i rest c k
    = match strip_prefix s rest with
      | Some rest' =>
          Regexp.matchk (Regexp.concat_of items) (i + String.length s) rest' c k
      | None => None
      end.
Proof.
  induction s as [|a s IH]; intros i rest c k.
  - simpl. now rewrite Nat.add_0_r.
  - simpl. destruct rest as [|x rest]; [reflexivity|].
    destruct (Ascii.eqb x a); [|reflexivity].
    unfold Regexp.concat_of in IH. rewrite IH. now rewrite Nat.add_succ_r.
Qed.

Lemma matchk_plain (e : string) (i : nat) :
  Regexp.matchk (plain_regex t) i e [] (Regexp.whole i)
  = if (i =? 0)%nat then option_map (plain_spans t) (entry_value t e) else None.
Proof.
  unfold plain_regex. simpl. destruct (Nat.eqb_spec i 0) as [->|Hi]; [|reflexivity].
  fold (Regexp.concat_of (lits t ++ binding_tail)). rewrite matchk_lits.
  unfold entry_value. destruct (strip_prefix t e) as [rest|]; [|reflexivity].
  rewrite matchk_binding_tail. simpl.
  destruct rest as [|a [|b r]]; try reflexivity.
  destruct (Ascii.eqb a "=" && Ascii.eqb b dquote); [|reflexivity].
  now destruct (quoted_tail r).
Qed.

Lemma search_plain (e : string) :
  Regexp.search (plain_regex t) 0 e = option_map (plain_spans t) (entry_value t e).
Proof.
  destruct e as [|a e]; unfold Regexp.search; fold Regexp.search;
    rewrite matchk_plain; simpl (0 =? 0)%nat; cbv iota;
    destruct (entry_value t _); try reflexivity.
  apply search_anchored. discriminate.
Qed.

(** [FindStringSubmatch] with the pattern of a plain target: the entry and
    the quoted text, or nothing. *)
Lemma FindStringSubmatch_plain (e : string) :
  Regexp.FindStringSubmatch (plain_regex t) 1 e
  = match entry_value t e with
    | Some w => [e; w]
    | None => []
    end.
Proof.
  unfold Regexp.FindStringSubmatch. rewrite search_plain.
  destruct (entry_value t e) as [w|] eqn:E; [|reflexivity].
  destruct (entry_value_sound _ _ _ E) as [-> _].
  unfold Regexp.group_text, plain_spans.
  cbn [option_map map seq Regexp.span_of Nat.eqb].
  rewrite Nat.sub_0_r.
  replace (S (S (String.length t)) + String.length w - S (S (String.length t)))%nat
    with (String.length w) by lia.
  f_equal; [|f_equal].
  - replace (S (S (S (String.length t)) + String.length w))
      with (String.length (t ++ "=" ++ str1 dquote ++ w ++ str1 dquote)).
    + apply substring_whole.
    + rewrite !length_append. simpl. lia.
  - apply substring_entry.
Qed.

Lemma find_value_plain (env : list string) :
  find_value t env = Ok (first_value t env).
Proof.
  induction env as [|e env IH]; simpl; [reflexivity|].
  rewrite Compile_plain, FindStringSubmatch_plain.
  destruct (entry_value t e) as [w|]; simpl; [|exact IH].
  destruct (String.eqb w EmptyString); simpl; [exact IH | reflexivity].
Qed.

Hypothesis t_no_equals : no_equals t = true.

Lemma first_value_serialize (bs : list (string * string)) :
  Forall (fun b => no_equals (fst b) = true /\ no_newline (snd b) = true) bs ->
  (if String.eqb (first_value t (serialize bs)) EmptyString then t
   else first_value t (serialize bs))
  = resolve_spec t bs.
Proof.
  intros Hbs. induction Hbs as [|[n v] bs [Hn Hv] _ IH]; simpl; [reflexivity|].
  simpl in Hn, Hv. rewrite (entry_value_binding t n v t_no_equals Hn).
  destruct (String.eqb n t); simpl; [|exact IH].
  rewrite (quoted_tail_complete v Hv).
  destruct (String.eqb v EmptyString) eqn:Ev; simpl; [exact IH|]. now rewrite Ev.
Qed.

End PlainTarget.

(** ** The environment across steps and repetitions *)

Lemma run_steps_threaded (pods : GetPodsOutput.t) (steps : list Step.t) :
  forall (results : list (list received)) (st : exec),
    threaded (ex_env st) (fst (run_steps pods steps results st)).
Proof.
  induction steps as [|step0 steps IH]; intros results st; simpl; [exact I|].
  destruct (handleStep pods (default_EndNode step0) (hd [] results) st)
    as [st'| | |] eqn:E; simpl; try (split; [reflexivity | exact I]).
  specialize (IH (tl results) st').
  destruct (run_steps pods steps (tl results) st') as [cs o]. simpl in *.
  split; [reflexivity|]. destruct cs as [|c cs]; [exact I|].
  exists st'. split; [reflexivity | exact IH].
Qed.

Lemma run_body_threaded (test : Test.t) (w : repetition) (sh : shared) :
  threaded [] (fst (run_body test w sh)).
Proof.
  unfold run_body.
  destruct (Test.Steps test) as [|s steps] eqn:Es; [exact I|].
  destruct (rep_pods w) as [pods|]; [|exact I].
  pose proof (run_steps_threaded pods (s :: steps) (rep_results w)
                (mkExec (sh_summary sh) [] (sh_files sh) (sh_launched sh))) as H.
  destruct (run_steps pods (s :: steps) (rep_results w) _) as [cs o].
  destruct o; exact H.
Qed.

Lemma run_repetition_threaded (test : Test.t) (w : repetition) (sh : shared) :
  threaded [] (fst (run_repetition test w sh)).
Proof.
  unfold run_repetition. destruct (rep_running w) as [running|]; [|exact I].
  destruct (_ >? _); [destruct (rep_scale w)|];
    first [apply run_body_threaded | exact I].
Qed.

Lemma run_repetitions_threaded (test : Test.t) (times : nat) :
  forall (ws : list repetition) (sh : shared),
    Forall (threaded []) (fst (run_repetitions test times ws sh)).
Proof.
  induction times as [|times IH]; intros ws sh; simpl; [constructor|].
  pose proof (run_repetition_threaded test
                (hd (mkRepetition None ScaleFails None []) ws) sh) as H.
  destruct (run_repetition test _ sh) as [cs [sh'|e]]; simpl in *.
  - specialize (IH (tl ws) sh').
    destruct (run_repetitions test times (tl ws) sh') as [css o]. simpl in *.
    now constructor.
  - now repeat constructor.
Qed.

(** The environment only grows while a step is handled. *)
Lemma handle_result_env_grows (step : Step.t) (r : received) (st st' : exec) :
  handle_result step r st = Ok st' -> exists added, ex_env st' = ex_env st ++ added.
Proof.
  unfold handle_result. destruct (rc_err r).
  - intros [= <-]. exists []. simpl. now rewrite app_nil_r.
  - destruct (check_assertions _ _ _ _) as [s| | |]; simpl; try discriminate.
    intros [= <-]. simpl. rewrite (save_outputs_zip _ _ 0). eauto.
Qed.

Lemma collect_env_grows (step : Step.t) (js : list Z) :
  forall (rs : list received) (st st' : exec),
    collect step js rs st = Ok st' -> exists added, ex_env st' = ex_env st ++ added.
Proof.
  induction js as [|j js IH]; simpl; intros rs st st' H.
  - injection H as <-. exists []. now rewrite app_nil_r.
  - destruct rs as [|r rs]; [discriminate|].
    destruct (handle_result step r st) as [st1| | |] eqn:E; simpl in H; try discriminate.
    destruct (handle_result_env_grows _ _ _ _ E) as [a1 E1].
    destruct (IH _ _ _ H) as [a2 E2].
    exists (a1 ++ a2). now rewrite E2, E1, app_assoc.
Qed.

Lemma handleStep_env_grows (pods : GetPodsOutput.t) (step : Step.t)
    (rs : list received) (st st' : exec) :
  handleStep pods step rs st = Ok st' -> exists added, ex_env st' = ex_env st ++ added.
Proof.
  unfold handleStep. destruct (_ <? 0); [discriminate|].
  destruct (dispatch _ _ _ _) as [launched| | |]; simpl; try discriminate.
  intros H. now apply collect_env_grows in H.
Qed.

(** ** How [main] can end *)

Ltac compare_counters summary expected :=
  destruct (Z.eqb_spec (Summary.Successes summary) (Expected.Successes expected));
  destruct (Z.eqb_spec (Summary.Failures summary) (Expected.Failures expected));
  destruct (Z.eqb_spec (Summary.Timeouts summary) (Expected.Timeouts expected)).

Lemma run_body_not_Exit (test : Test.t) (w : repetition) (sh : shared) cs code :
  run_body test w sh <> (cs, inr (Exit code)).
Proof.
  unfold run_body. destruct (Test.Steps test); [discriminate|].
  destruct (rep_pods w) as [pods|]; [|discriminate].
  destruct (run_steps pods _ _ _) as [cs' [st| | |]]; discriminate.
Qed.

Lemma run_repetition_Exit (test : Test.t) (w : repetition) (sh : shared) cs code :
  run_repetition test w sh = (cs, inr (Exit code)) -> code = 1.
Proof.
  unfold run_repetition. destruct (rep_running w); [|now intros [= _ <-]].
  destruct (_ >? _); [destruct (rep_scale w)|]; intros H;
    try (now injection H as _ <-); try discriminate;
    now apply run_body_not_Exit in H.
Qed.

Lemma run_repetitions_Exit (test : Test.t) (times : nat) :
  forall (ws : list repetition) (sh : shared) css code,
    run_repetitions test times ws sh = (css, inr (Exit code)) -> code = 1.
Proof.
  induction times as [|times IH]; intros ws sh css code; simpl; [discriminate|].
  destruct (run_repetition test _ sh) as [cs [sh'|e]] eqn:E.
  - destruct (run_repetitions test times (tl ws) sh') as [css' o] eqn:E'.
    intros [= _ ->]. now apply IH in E'.
  - intros [= _ ->]. now apply run_repetition_Exit in E.
Qed.


(** With no timeout asked for, the flag goes out as initialised. *)
Lemma timeout_zero_never_reached (p : process) :
  sent_flags (runInPodAsync 0 p) = [false] /\ snd (runInPod 0 p) = false.
Proof. split; reflexivity. Qed.

(** ** The scenarios of the specification *)

Example scenario_1_passes : snd (main scenario_1 scenario_1_cluster) = Exit 0.
Proof. vm_compute. reflexivity. Qed.

Example scenario_2_passes : snd (main scenario_2 scenario_2_cluster) = Exit 0.
Proof. vm_compute. reflexivity. Qed.

Example scenario_3_counts_three_timeouts :
  snd (main scenario_3 scenario_3_cluster) = Exit 0.
Proof. vm_compute. reflexivity. Qed.

Example scenario_5_adds_up : snd (main scenario_5 scenario_5_cluster) = Exit 0.
Proof. vm_compute. reflexivity. Qed.

(** The empty last line of the asynchronous path can be asserted on: line 1
    of what a pod printing one line sends is in bounds. *)
Example trailing_empty_line_is_asserted :
  outcome_map (fun st => Summary.Successes (ex_summary st))
    (handle_result step_asserting_line_1
       (mkReceived (Split ("ok" ++ str1 newline) newline) false true) start)
  = Ok 2
  /\ outcome_map (fun st => Summary.Successes (ex_summary st))
       (handle_result step_asserting_line_1
          (mkReceived (fst (runInPod 0 (mkProcess ("ok" ++ str1 newline) false)))
                      false true) start)
     = Ok 1.
Proof. split; vm_compute; reflexivity. Qed.

(** Why the first-match reading needs its side conditions: an entry built
    for a name with an equals sign reads as an entry for a shorter name,
    a target with an equals sign reads into the value of a shorter name,
    and a value of two lines is never matched. *)
Example side_conditions_are_needed :
  resolve "A" (serialize [(odd_name, "c")]) = Ok ("B=" ++ str1 dquote ++ "c")%string
  /\ resolve odd_name (serialize [("A", ("B=" ++ str1 dquote ++ "c")%string)]) = Ok "c"
  /\ resolve "A" (serialize [("A", two_lines)]) = Ok "A".
Proof. repeat split. Qed.

(** * The claims *)

(** C1. For a step on nodes 1 to 2 of a two-pod cluster, [handleStep]
    launches both commands on the first pod, where the specification has
    index j run on the handle at position j.  The dispatch loop indexes the
    pod list with [OnNode], not with its loop variable. *)
Theorem handleStep_dispatches_on_first_node_only :
  outcome_map ex_launched (handleStep two_pods step_on_1_to_2 [quiet; quiet] start)
  = Ok [mkInvocation "ipfs-0" "id" 0; mkInvocation "ipfs-0" "id" 0]
  /\ dispatch_spec two_pods step_on_1_to_2 [] (node_range 1 2)
     = Ok [mkInvocation "ipfs-0" "id" 0; mkInvocation "ipfs-1" "id" 0].
Proof. split; vm_compute; reflexivity. Qed.

(** C2. For a binding that declares line 1 and a result of two lines,
    [handleStep] binds the name to line 0, where the specification binds it
    to line 1.  The output loop reads the line at the binding's position in
    the list, not at its declared index. *)
Theorem save_outputs_reads_by_position :
  outcome_map ex_env
    (handle_result step_saving_line_1 (mkReceived ["a"; "b"] false true) start)
  = Ok [binding "HASH" "a"]
  /\ save_outputs_spec (Step.Outputs step_saving_line_1) ["a"; "b"] []
     = [binding "HASH" "b"].
Proof. split; vm_compute; reflexivity. Qed.

(** C3. For every standard output that ends with a newline, the lines
    [runInPodAsync] sends to the step executor end with an empty element,
    which [runInPod] drops before returning. *)
Theorem runInPodAsync_keeps_trailing_empty_line :
  forall (stdout : string) (timeout : Z) (fired : bool),
    let p := mkProcess (stdout ++ str1 newline) fired in
    sent_strings (runInPodAsync timeout p)
    = [Split stdout newline ++ [EmptyString]; Split stdout newline ++ [EmptyString]]
    /\ fst (runInPod timeout p) = Split stdout newline.
Proof.
  intros stdout timeout fired p. unfold runInPodAsync, runInPod, p. simpl.
  rewrite Split_trailing_sep. split; [reflexivity|].
  unfold drop_last. apply removelast_last.
Qed.

(** C4. [evaluateOutcome] returns 0 exactly when the three counters of the
    summary equal the three expected counters, and 1 otherwise; a run of
    [main] that completes its repetitions exits with that value, and no
    run of [main] exits with 0 in any other way. *)
Theorem exit_code_zero_iff_exact_match :
  forall (summary : Summary.t) (expected : Expected.t),
    (evaluateOutcome summary expected = 0 <->
       Summary.Successes summary = Expected.Successes expected /\
       Summary.Failures summary = Expected.Failures expected /\
       Summary.Timeouts summary = Expected.Timeouts expected)
    /\ (evaluateOutcome summary expected = 0 \/ evaluateOutcome summary expected = 1)
    /\ (forall (test : Test.t) (ws : list repetition) css sh,
          Config.Expected (Test.Config test) = expected ->
          sh_summary sh = summary ->
          run_repetitions test (Z.to_nat (Config.Times (Test.Config test))) ws
            (mkShared (Summary.mk 0 0 (Config.Times (Test.Config test)) 0 0) [] [])
          = (css, inl sh) ->
          snd (main test ws) = Exit (evaluateOutcome summary expected))
    /\ (forall (test : Test.t) (ws : list repetition),
          Config.Expected (Test.Config test) = expected ->
          snd (main test ws) = Exit 0 ->
          exists css sh,
            run_repetitions test (Z.to_nat (Config.Times (Test.Config test))) ws
              (mkShared (Summary.mk 0 0 (Config.Times (Test.Config test)) 0 0) [] [])
            = (css, inl sh)
            /\ evaluateOutcome (sh_summary sh) expected = 0).
Proof.
  intros summary expected. split; [split|split; [|split]].
  - unfold evaluateOutcome. compare_counters summary expected;
      simpl; try discriminate; auto.
  - unfold evaluateOutcome. intros [H1 [H2 H3]]. rewrite H1, H2, H3.
    now rewrite !Z.eqb_refl.
  - unfold evaluateOutcome. destruct (_ || _); auto.
  - intros test ws css sh Hexp Hsum Hrun. unfold main.
    rewrite Hrun. simpl. now rewrite Hexp, Hsum.
  - intros test ws Hexp. unfold main.
    destruct (run_repetitions test _ ws _) as [css [sh|e]] eqn:E; simpl.
    + intros [= H]. exists css, sh. split; [reflexivity|]. now rewrite <- Hexp.
    + intros ->. apply run_repetitions_Exit in E. discriminate E.
Qed.

Lemma exit_code_zero_iff_exact_match_witness :
  snd (main scenario_1 scenario_1_cluster)
  = Exit (evaluateOutcome (Summary.mk 1 0 1 1 0) (Expected.mk 1 0 0)).
Proof.
  apply (proj1 (proj2 (proj2 (exit_code_zero_iff_exact_match
                                (Summary.mk 1 0 1 1 0) (Expected.mk 1 0 0))))
           scenario_1 scenario_1_cluster
           (fst (run_repetitions scenario_1 1 scenario_1_cluster
                   (mkShared (Summary.mk 0 0 1 0 0) [] [])))
           (mkShared (Summary.mk 1 0 1 1 0) [] [mkInvocation "ipfs-0" "echo ok" 0])).
  - reflexivity.
  - reflexivity.
  - vm_compute. reflexivity.
Defined.




(** C6. A result whose timed-out flag is set adds one to the timeouts and
    changes nothing else: successes, failures, the environment and the
    files stay as they were, and the loop goes on with the next result. *)
Theorem timed_out_result_only_counts :
  forall (step : Step.t) (r : received) (st : exec),
    rc_err r = true ->
    exists st',
      handle_result step r st = Ok st'
      /\ Summary.Timeouts (ex_summary st') = GoInt.add (Summary.Timeouts (ex_summary st)) 1
      /\ (GoInt.min_int <= Summary.Timeouts (ex_summary st) < GoInt.max_int ->
          Summary.Timeouts (ex_summary st') = Summary.Timeouts (ex_summary st) + 1)
      /\ Summary.Successes (ex_summary st') = Summary.Successes (ex_summary st)
      /\ Summary.Failures (ex_summary st') = Summary.Failures (ex_summary st)
      /\ ex_env st' = ex_env st
      /\ ex_files st' = ex_files st
      /\ (forall j js rs, collect step (j :: js) (r :: rs) st = collect step js rs st').
Proof.
  intros step r st Herr.
  exists (set_summary st (add_timeout (ex_summary st))).
  unfold handle_result. rewrite Herr. simpl.
  repeat split; try reflexivity.
  - intros [Hlo Hhi]. now apply add_one_no_overflow.
  - intros j js rs. unfold handle_result. now rewrite Herr.
Qed.

Lemma timed_out_result_only_counts_witness :
  exists st',
    handle_result step_asserting_line_1 timed_out_pair start = Ok st'
    /\ Summary.Timeouts (ex_summary st') = GoInt.add (Summary.Timeouts (ex_summary start)) 1
    /\ (GoInt.min_int <= Summary.Timeouts (ex_summary start) < GoInt.max_int ->
        Summary.Timeouts (ex_summary st') = Summary.Timeouts (ex_summary start) + 1)
    /\ Summary.Successes (ex_summary st') = Summary.Successes (ex_summary start)
    /\ Summary.Failures (ex_summary st') = Summary.Failures (ex_summary start)
    /\ ex_env st' = ex_env start
    /\ ex_files st' = ex_files start
    /\ (forall j js rs,
          collect step_asserting_line_1 (j :: js) (timed_out_pair :: rs) start
          = collect step_asserting_line_1 js rs st').
Proof.
  apply (timed_out_result_only_counts step_asserting_line_1 timed_out_pair start).
  reflexivity.
Defined.

(** C8. In every run of [main], the calls of [handleStep] of each
    repetition start from the empty environment, and each later call of
    the repetition gets the environment the call before it returned: what a
    repetition binds does not reach the next one. *)
Theorem environment_starts_empty_every_repetition :
  forall (test : Test.t) (ws : list repetition),
    Forall (threaded []) (fst (main test ws)).
Proof.
  intros test ws. unfold main.
  pose proof (run_repetitions_threaded test
                (Z.to_nat (Config.Times (Test.Config test))) ws
                (mkShared (Summary.mk 0 0 (Config.Times (Test.Config test)) 0 0) [] []))
    as H.
  destruct (run_repetitions test _ ws _) as [css [sh|e]]; exact H.
Qed.

(** C9. A step whose [EndNode] is zero is handed to [handleStep] with
    [EndNode] set to [OnNode]: its node range is the single index [OnNode],
    and [main] runs it as it runs the step with that [EndNode] written
    out. *)
Theorem unset_EndNode_runs_on_OnNode_alone :
  forall step : Step.t,
    Step.EndNode step = 0 ->
    default_EndNode step = Step.with_EndNode step (Step.OnNode step)
    /\ node_range (Step.OnNode (default_EndNode step))
                  (Step.EndNode (default_EndNode step)) = [Step.OnNode step]
    /\ (forall pods steps results st,
          run_steps pods (step :: steps) results st
          = run_steps pods (Step.with_EndNode step (Step.OnNode step) :: steps)
                      results st).
Proof.
  intros step H.
  assert (E : default_EndNode step = Step.with_EndNode step (Step.OnNode step)).
  { unfold default_EndNode. now rewrite H. }
  assert (E' : default_EndNode (Step.with_EndNode step (Step.OnNode step))
               = Step.with_EndNode step (Step.OnNode step)).
  { unfold default_EndNode. simpl. now destruct (Step.OnNode step =? 0). }
  repeat split.
  - exact E.
  - rewrite E. simpl. unfold node_range.
    replace (Step.OnNode step - Step.OnNode step + 1) with 1 by lia.
    simpl. f_equal. lia.
  - intros. simpl. now rewrite E, E'.
Qed.

Lemma unset_EndNode_runs_on_OnNode_alone_witness :
  default_EndNode step_without_EndNode = Step.with_EndNode step_without_EndNode 3
  /\ node_range (Step.OnNode (default_EndNode step_without_EndNode))
                (Step.EndNode (default_EndNode step_without_EndNode)) = [3]
  /\ (forall pods steps results st,
        run_steps pods (step_without_EndNode :: steps) results st
        = run_steps pods (Step.with_EndNode step_without_EndNode 3 :: steps)
                    results st).
Proof.
  apply (unset_EndNode_runs_on_OnNode_alone step_without_EndNode). reflexivity.
Defined.


(** * Further properties of [main.go] *)

(** ** Counting and waiting for pods *)

Lemma count_running_from (items : list Pod.t) :
  forall n : Z,
    GoInt.min_int <= n ->
    n + len (filter is_running items) <= GoInt.max_int ->
    count_running items n = n + len (filter is_running items).
Proof.
  unfold len. induction items as [|pod items IH]; intros n Hlo Hhi; simpl in *.
  - lia.
  - unfold is_running in *. destruct (String.eqb (Pod.StatusPhase pod) "Running").
    + simpl List.length in Hhi. rewrite add_one_no_overflow by lia.
      rewrite IH by lia. simpl List.length. lia.
    + now apply IH.
Qed.

Lemma filter_length_le {A : Type} (f : A -> bool) (l : list A) :
  (List.length (filter f l) <= List.length l)%nat.
Proof.
  induction l as [|a l IH]; simpl; [lia|]. destruct (f a); simpl; lia.
Qed.

(** [getRunningPods] answers with the number of pods whose phase is the
    text Running, a number between zero and the number of pods listed. *)
Theorem getRunningPods_counts_running_phase :
  forall pods : GetPodsOutput.t,
    len (GetPodsOutput.Items pods) <= GoInt.max_int ->
    getRunningPods (Some pods)
    = Some (len (filter is_running (GetPodsOutput.Items pods)))
    /\ 0 <= len (filter is_running (GetPodsOutput.Items pods))
         <= len (GetPodsOutput.Items pods).
Proof.
  intros pods H. pose proof (filter_length_le is_running (GetPodsOutput.Items pods)) as Hle.
  unfold len in *. split; [|lia]. simpl. f_equal.
  rewrite count_running_from; unfold len, GoInt.min_int; lia.
Qed.

Lemma getRunningPods_counts_running_phase_witness :
  getRunningPods (Some mixed_pods) = Some 2
  /\ 0 <= 2 <= 3.
Proof.
  apply (getRunningPods_counts_running_phase mixed_pods). vm_compute. discriminate.
Defined.

Lemma wait_running_Scaled (number : Z) (polls : list (option GetPodsOutput.t)) :
  forall (number_running : Z) (sleeps : nat),
    wait_running number number_running polls = (Scaled, sleeps) ->
    (sleeps = O /\ number <= number_running)
    \/ (number_running < number
        /\ exists answer n,
             nth_error polls (pred sleeps) = Some answer
             /\ getRunningPods answer = Some n
             /\ number <= n
             /\ (0 < sleeps)%nat
             /\ Forall (fun a => exists m, getRunningPods a = Some m /\ m < number)
                       (firstn (pred sleeps) polls)).
Proof.
  induction polls as [|answer polls IH]; intros r k; simpl.
  - destruct (Z.ltb_spec r number); [discriminate|]. intros [= <-]. left. lia.
  - destruct (Z.ltb_spec r number) as [Hlt|Hge]; [|intros [= <-]; left; lia].
    destruct (getRunningPods answer) as [n|] eqn:En; [|discriminate].
    destruct (wait_running number n polls) as [e k'] eqn:Ew.
    intros [= -> <-]. right. split; [exact Hlt|].
    destruct (IH _ _ Ew) as [[-> Hn]|[Hn (a' & n' & Hnth & Hg & Hle & Hk & Hall)]].
    + exists answer, n. simpl. repeat split; auto; lia.
    + exists a', n'. destruct k' as [|k']; [lia|]. simpl in *.
      repeat split; auto; try lia. constructor; [eauto | exact Hall].
Qed.

(** When [scaleTo] returns without error, either no node was asked for and
    no poll was made, or the last poll made is the first that saw at least
    the number of nodes asked for, every poll before it saw fewer, and
    each of these polls, the last one too, was followed by a sleep. *)
Theorem scaleTo_returns_when_enough_run :
  forall (cfg : Config.t) (scale_ok : bool)
         (polls : list (option GetPodsOutput.t)) (sleeps : nat),
    scaleTo cfg scale_ok polls = (Scaled, sleeps) ->
    scale_ok = true
    /\ ((sleeps = O /\ Config.Nodes cfg <= 0)
        \/ exists answer n,
             nth_error polls (pred sleeps) = Some answer
             /\ getRunningPods answer = Some n
             /\ Config.Nodes cfg <= n
             /\ (0 < sleeps)%nat
             /\ Forall (fun a => exists m, getRunningPods a = Some m
                                           /\ m < Config.Nodes cfg)
                       (firstn (pred sleeps) polls)).
Proof.
  intros cfg scale_ok polls sleeps. unfold scaleTo.
  destruct scale_ok; [|discriminate]. intros H. split; [reflexivity|].
  destruct (wait_running_Scaled _ _ _ _ H) as [?|[_ ?]]; auto.
Qed.

Lemma scaleTo_returns_when_enough_run_witness :
  true = true
  /\ ((2%nat = O /\ Config.Nodes config_of_two <= 0)
      \/ exists answer n,
           nth_error [Some pending_pods; Some mixed_pods] (pred 2) = Some answer
           /\ getRunningPods answer = Some n
           /\ Config.Nodes config_of_two <= n
           /\ (0 < 2)%nat
           /\ Forall (fun a => exists m, getRunningPods a = Some m
                                         /\ m < Config.Nodes config_of_two)
                     (firstn (pred 2) [Some pending_pods; Some mixed_pods])).
Proof.
  apply (scaleTo_returns_when_enough_run config_of_two true
           [Some pending_pods; Some mixed_pods] 2).
  reflexivity.
Defined.

(** ** Decimal texts *)

Lemma string_of_uint_revapp (d : Decimal.uint) :
  forall d' : Decimal.uint,
    DecimalString.NilEmpty.string_of_uint (Decimal.revapp d d')
    = (DecimalString.NilEmpty.string_of_uint (Decimal.revapp d Decimal.Nil)
       ++ DecimalString.NilEmpty.string_of_uint d')%string.
Proof.
  induction d as [|d IH|d IH|d IH|d IH|d IH|d IH|d IH|d IH|d IH|d IH];
    intros d'; simpl; [reflexivity|..];
    rewrite IH; symmetry; rewrite IH; simpl; now rewrite append_assoc.
Qed.

Lemma string_of_uint_app (d d' : Decimal.uint) :
  DecimalString.NilEmpty.string_of_uint (Decimal.app d d')
  = (DecimalString.NilEmpty.string_of_uint d
     ++ DecimalString.NilEmpty.string_of_uint d')%string.
Proof.
  unfold Decimal.app. rewrite string_of_uint_revapp.
  change (Decimal.revapp (Decimal.rev d) Decimal.Nil) with (Decimal.rev (Decimal.rev d)).
  now rewrite DecimalFacts.rev_rev.
Qed.

Lemma to_int_digits (i : Z) :
  exists d, d <> Decimal.Nil
            /\ (Z.to_int i = Decimal.Pos d \/ Z.to_int i = Decimal.Neg d).
Proof.
  destruct i as [|p|p]; simpl.
  - exists (Decimal.D0 Decimal.Nil). split; [discriminate | now left].
  - exists (Pos.to_uint p). split; [apply DecimalPos.Unsigned.to_uint_nonnil | now left].
  - exists (Pos.to_uint p). split; [apply DecimalPos.Unsigned.to_uint_nonnil | now right].
Qed.

Lemma string_of_uint_nonnil (d : Decimal.uint) :
  d <> Decimal.Nil ->
  DecimalString.NilZero.string_of_uint d = DecimalString.NilEmpty.string_of_uint d.
Proof. destruct d; [now intros [] | reflexivity..]. Qed.

Lemma app_three_zeros_nonnil (d : Decimal.uint) :
  Decimal.app d three_zeros <> Decimal.Nil.
Proof.
  intros E. pose proof (string_of_uint_app d three_zeros) as H. rewrite E in H.
  apply (f_equal String.length) in H. rewrite length_append in H. simpl in H. lia.
Qed.

Lemma FormatInt_thousandfold (i : Z) :
  unixToStr i
  = DecimalString.NilZero.string_of_int (Decimal.app_int (Z.to_int i) three_zeros).
Proof.
  unfold unixToStr, FormatInt.
  destruct (to_int_digits i) as (d & Hd & [E|E]); rewrite E; simpl;
    rewrite (string_of_uint_nonnil _ Hd),
            (string_of_uint_nonnil _ (app_three_zeros_nonnil d)),
            string_of_uint_app; reflexivity.
Qed.

Lemma read_unixToStr (i : Z) : read_decimal (unixToStr i) = Some (i * 1000).
Proof.
  unfold read_decimal. rewrite FormatInt_thousandfold.
  rewrite DecimalString.NilZero.isi.
  - simpl. f_equal. unfold three_zeros.
    rewrite DecimalZ.of_int_iter_D0, DecimalZ.of_to.
    change (Nat.iter 3 (Z.mul 10) i) with (10 * (10 * (10 * i))). lia.
  - destruct (to_int_digits i) as (d & Hd & [E|E]); rewrite E; simpl; [|discriminate].
    intros [= H]. now apply (app_three_zeros_nonnil d).
  - destruct (to_int_digits i) as (d & Hd & [E|E]); rewrite E; simpl; [discriminate|].
    intros [= H]. now apply (app_three_zeros_nonnil d).
Qed.

(** [unixToStr] turns seconds into milliseconds: read as a decimal number,
    its text is a thousand times its argument, for zero and for negative
    arguments too, and it always ends with three zeros. *)
Theorem unixToStr_reads_as_thousandfold :
  forall i : Z,
    read_decimal (unixToStr i) = Some (i * 1000)
    /\ exists digits, unixToStr i = (digits ++ "000")%string
                      /\ read_decimal digits = Some i.
Proof.
  intros i. split; [apply read_unixToStr|].
  exists (FormatInt i). split; [reflexivity|].
  unfold read_decimal, FormatInt.
  destruct (to_int_digits i) as (d & Hd & [E|E]).
  - rewrite DecimalString.NilZero.isi; rewrite E; try discriminate.
    + rewrite <- E. simpl. now rewrite DecimalZ.of_to.
    + now intros [= ->].
  - rewrite DecimalString.NilZero.isi; rewrite E; try discriminate.
    + rewrite <- E. simpl. now rewrite DecimalZ.of_to.
    + now intros [= ->].
Qed.

(** ** The summary printed at the end *)

Lemma all_chars_append (p : ascii -> bool) (a b : string) :
  all_chars p (a ++ b) = all_chars p a && all_chars p b.
Proof.
  induction a as [|c a IH]; simpl; [reflexivity|]. now rewrite IH, andb_assoc.
Qed.

Lemma remove_all_gone (s : string) (old : ascii) :
  all_chars (fun c => negb (Ascii.eqb c old)) (remove_all s old) = true.
Proof.
  induction s as [|c s IH]; simpl; [reflexivity|].
  destruct (Ascii.eqb c old) eqn:E; simpl; [exact IH | now rewrite E].
Qed.

Lemma digits_no_quote (d : Decimal.uint) :
  no_quote (DecimalString.NilEmpty.string_of_uint d) = true.
Proof. induction d; simpl; auto. Qed.

Lemma FormatInt_no_quote (i : Z) : no_quote (FormatInt i) = true.
Proof.
  unfold FormatInt.
  destruct (to_int_digits i) as (d & Hd & [E|E]); rewrite E; simpl;
    rewrite (string_of_uint_nonnil _ Hd); [|unfold no_quote; simpl];
    apply digits_no_quote.
Qed.

(** The metrics link holds no single quote, whatever the two [kubectl]
    calls wrote, and its two bounds read as the start and end stamps in
    milliseconds. *)
Theorem metricsLink_is_unquoted :
  forall (t : stamps) (g : grafana),
    no_quote (metricsLink t g) = true
    /\ (exists before,
          metricsLink t g
          = (before ++ "?from=" ++ unixToStr (Start_Unix t)
                    ++ "&to=" ++ unixToStr (End_Unix t))%string)
    /\ read_decimal (unixToStr (Start_Unix t)) = Some (Start_Unix t * 1000)
    /\ read_decimal (unixToStr (End_Unix t)) = Some (End_Unix t * 1000).
Proof.
  intros t g. split; [|split; [|split; apply read_unixToStr]].
  - unfold metricsLink, no_quote, unixToStr.
    repeat (rewrite all_chars_append).
    fold quote. rewrite !remove_all_gone.
    pose proof (FormatInt_no_quote (Start_Unix t)) as Hs.
    pose proof (FormatInt_no_quote (End_Unix t)) as He.
    unfold no_quote in Hs, He. rewrite Hs, He. reflexivity.
  - exists ("http://" ++ remove_all (address_out g) quote ++ ":"
            ++ remove_all (port_out g) quote
            ++ "/dashboard/db/kubernetes-pod-resources")%string.
    unfold metricsLink. repeat (rewrite append_assoc; simpl). reflexivity.
Qed.

(** [printSummary] prints a line that starts with the Metrics label
    exactly when the call that asks for the node address failed. *)
Theorem printSummary_links_only_on_failure :
  forall (summary : Summary.t) (t : stamps) (g : grafana),
    (exists l, In l (printSummary summary t g)
               /\ String.prefix "== Metrics: " l = true)
    <-> address_fails g = true.
Proof.
  intros summary t g. unfold printSummary. split.
  - intros (l & Hin & Hp). destruct (address_fails g); [reflexivity|].
    rewrite app_nil_r in Hin. simpl in Hin.
    repeat (destruct Hin as [<-|Hin]; [discriminate Hp|]). destruct Hin.
  - intros ->. exists ("== Metrics: " ++ metricsLink t g)%string. split.
    + apply in_or_app. right. right. now left.
    + reflexivity.
Qed.

(** ** The script a pod is given *)

Lemma fold_left_entries (env : list string) :
  forall acc : string,
    fold_left (fun a e => (a ++ e ++ " ")%string) env acc
    = (acc ++ entries_text env)%string.
Proof.
  induction env as [|e env IH]; intros acc; simpl.
  - symmetry. induction acc as [|c acc IHacc]; simpl; [reflexivity | now rewrite IHacc].
  - rewrite IH. now rewrite !append_assoc.
Qed.

Lemma entries_text_nonempty (e : string) (env : list string) :
  String.eqb (entries_text (e :: env)) EmptyString = false.
Proof. simpl. now destruct e. Qed.

(** The script handed to [bash -c] is the bare command when the
    environment is empty; otherwise it is every entry of the environment,
    in order, each followed by one space, then two ampersands, a space and
    the command. *)
Theorem script_prefixes_every_entry :
  forall (name cmdToRun : string) (env : list string) (timeout : Z),
    inv_script (command_for name cmdToRun env timeout)
    = match env with
      | [] => cmdToRun
      | _ :: _ => (entries_text env ++ "&& " ++ cmdToRun)%string
      end.
Proof.
  intros name cmdToRun env timeout. unfold command_for, envString. simpl.
  rewrite fold_left_entries. simpl. destruct env as [|e env]; [reflexivity|].
  rewrite entries_text_nonempty. now rewrite append_assoc.
Qed.

(** ** The raw-output file *)

Lemma Join_Split (s : string) (sep : ascii) : Join (Split s sep) (str1 sep) = s.
Proof.
  induction s as [|c s IH]; simpl; [reflexivity|].
  destruct (Ascii.eqb_spec c sep) as [->|Hc].
  - destruct (Split s sep) as [|h t] eqn:E; [now destruct (Split_nonempty s sep)|].
    change (Join (EmptyString :: h :: t) (str1 sep))
      with (EmptyString ++ str1 sep ++ Join (h :: t) (str1 sep))%string.
    now rewrite IH.
  - destruct (Split s sep) as [|h t] eqn:E; [now destruct (Split_nonempty s sep)|].
    simpl in *. destruct t; simpl; now rewrite <- IH.
Qed.

(** When the lines received are those [runInPodAsync] sends for a standard
    output, and the result is handled without a panic, the file named by
    the step gets that standard output appended byte for byte, provided a
    file is named and it opens; otherwise no file is touched. *)
Theorem raw_output_file_gets_stdout :
  forall (step : Step.t) (stdout : string) (open_ok : bool) (st st' : exec),
    handle_result step (mkReceived (Split stdout newline) false open_ok) st = Ok st' ->
    ex_files st'
    = if negb (String.eqb (Step.WriteToFile step) EmptyString) && open_ok
      then ex_files st ++ [(Step.WriteToFile step, stdout)]
      else ex_files st.
Proof.
  intros step stdout open_ok st st'. unfold handle_result. simpl.
  destruct (check_assertions _ _ _ _) as [s| | |]; simpl; try discriminate.
  intros [= <-]. simpl. now rewrite Join_Split.
Qed.

Lemma raw_output_file_gets_stdout_witness :
  ex_files (mkExec Summary.zero [] [("out.txt", "ok" ++ str1 newline)%string] [])
  = if negb (String.eqb (Step.WriteToFile step_to_file) EmptyString) && true
    then ex_files start ++ [(Step.WriteToFile step_to_file, ("ok" ++ str1 newline)%string)]
    else ex_files start.
Proof.
  apply (raw_output_file_gets_stdout step_to_file ("ok" ++ str1 newline) true start).
  reflexivity.
Defined.

(** ** What a step launches, and when it panics *)

Lemma handle_result_launched (step : Step.t) (r : received) (st st' : exec) :
  handle_result step r st = Ok st' -> ex_launched st' = ex_launched st.
Proof.
  unfold handle_result. destruct (rc_err r); [now intros [= <-]|].
  destruct (check_assertions _ _ _ _) as [s| | |]; simpl; try discriminate.
  now intros [= <-].
Qed.

Lemma collect_launched (step : Step.t) (js : list Z) :
  forall (rs : list received) (st st' : exec),
    collect step js rs st = Ok st' -> ex_launched st' = ex_launched st.
Proof.
  induction js as [|j js IH]; simpl; intros rs st st' H; [now injection H as <-|].
  destruct rs as [|r rs]; [discriminate|].
  destruct (handle_result step r st) as [st1| | |] eqn:E; simpl in H; try discriminate.
  rewrite (IH _ _ _ H). now apply handle_result_launched in E.
Qed.

Lemma dispatch_length (pods : GetPodsOutput.t) (step : Step.t) (env : list string)
    (js : list Z) :
  forall invs, dispatch pods step env js = Ok invs ->
               List.length invs = List.length js
               /\ Forall (fun inv =>
                            inv = command_for (inv_pod inv) (Step.CMD step) env
                                              (Step.Timeout step)) invs.
Proof.
  induction js as [|j js IH]; simpl; intros invs H.
  - injection H as <-. split; [reflexivity | constructor].
  - destruct (elem_at _ _) as [pod| | |]; simpl in H; try discriminate.
    destruct (dispatch pods step env js) as [rest| | |]; simpl in H; try discriminate.
    injection H as <-. destruct (IH rest eq_refl) as [Hl Hf].
    split; [simpl; now rewrite Hl | constructor; [reflexivity | exact Hf]].
Qed.

(** A step that is handled to the end has launched one command per index
    of its range, each with the step's command and timeout and with the
    environment as it was when the step began: what the step's own results
    bind does not reach its own commands. *)
Theorem handleStep_launches_with_entry_environment :
  forall (pods : GetPodsOutput.t) (step : Step.t) (rs : list received)
         (st st' : exec),
    handleStep pods step rs st = Ok st' ->
    exists invs,
      ex_launched st' = ex_launched st ++ invs
      /\ List.length invs
         = List.length (node_range (Step.OnNode step) (Step.EndNode step))
      /\ Forall (fun inv =>
                   inv = command_for (inv_pod inv) (Step.CMD step) (ex_env st)
                                     (Step.Timeout step)) invs.
Proof.
  intros pods step rs st st'. unfold handleStep.
  destruct (_ <? 0); [discriminate|].
  destruct (dispatch _ _ _ _) as [invs| | |] eqn:E; simpl; try discriminate.
  intros H. apply collect_launched in H. simpl in H.
  exists invs. destruct (dispatch_length _ _ _ _ _ E) as [Hl Hf]. auto.
Qed.

Lemma handleStep_launches_with_entry_environment_witness :
  exists invs,
    ex_launched (mkExec Summary.zero [] []
                   [mkInvocation "ipfs-0" "id" 0; mkInvocation "ipfs-0" "id" 0])
    = ex_launched start ++ invs
    /\ List.length invs
       = List.length (node_range (Step.OnNode step_on_1_to_2)
                                 (Step.EndNode step_on_1_to_2))
    /\ Forall (fun inv =>
                 inv = command_for (inv_pod inv) (Step.CMD step_on_1_to_2)
                                   (ex_env start) (Step.Timeout step_on_1_to_2)) invs.
Proof.
  apply (handleStep_launches_with_entry_environment
           two_pods step_on_1_to_2 [quiet; quiet] start).
  reflexivity.
Defined.

Lemma sub_no_overflow (a b : Z) :
  GoInt.in_range (a - b) -> GoInt.sub a b = a - b.
Proof. intros H. unfold GoInt.sub. now apply wrap_in_range. Qed.

Lemma add_no_overflow (a b : Z) :
  GoInt.in_range (a + b) -> GoInt.add a b = a + b.
Proof. intros H. unfold GoInt.add. now apply wrap_in_range. Qed.

Lemma numNodes_plain (onNode endNode : Z) :
  0 <= onNode <= GoInt.max_int -> 0 <= endNode <= GoInt.max_int ->
  endNode - onNode + 1 <= GoInt.max_int ->
  GoInt.add (GoInt.sub endNode onNode) 1 = endNode - onNode + 1.
Proof.
  intros Ho He Hn. unfold GoInt.max_int in *.
  rewrite sub_no_overflow by (unfold GoInt.in_range, GoInt.min_int, GoInt.max_int; lia).
  apply add_no_overflow. unfold GoInt.in_range, GoInt.min_int, GoInt.max_int. lia.
Qed.

(** A step whose [EndNode] is at least two below its [OnNode] panics
    before anything is launched: the channels are made with a negative
    size. *)
Theorem handleStep_panics_on_backward_range :
  forall (pods : GetPodsOutput.t) (step : Step.t) (rs : list received) (st : exec),
    0 <= Step.EndNode step ->
    Step.OnNode step <= GoInt.max_int ->
    Step.EndNode step + 1 < Step.OnNode step ->
    handleStep pods step rs st = Panics.
Proof.
  intros pods step rs st He Ho Hlt. unfold handleStep.
  rewrite numNodes_plain by (unfold GoInt.max_int in *; lia).
  destruct (Z.ltb_spec (Step.EndNode step - Step.OnNode step + 1) 0); [reflexivity | lia].
Qed.

Lemma handleStep_panics_on_backward_range_witness :
  handleStep two_pods step_backwards [] start = Panics.
Proof.
  apply (handleStep_panics_on_backward_range two_pods step_backwards [] start);
    vm_compute; congruence.
Defined.

(** A step whose [EndNode] is exactly one below its [OnNode] does nothing
    at all: nothing is launched, no result is awaited, the state is
    returned as it came, whatever pods there are. *)
Theorem handleStep_does_nothing_on_empty_range :
  forall (pods : GetPodsOutput.t) (step : Step.t) (rs : list received) (st : exec),
    0 <= Step.EndNode step ->
    Step.OnNode step <= GoInt.max_int ->
    Step.EndNode step + 1 = Step.OnNode step ->
    handleStep pods step rs st = Ok st.
Proof.
  intros pods step rs st He Ho Heq. unfold handleStep.
  rewrite numNodes_plain by (unfold GoInt.max_int in *; lia).
  unfold node_range.
  replace (Step.EndNode step - Step.OnNode step + 1) with 0 by lia. simpl.
  rewrite app_nil_r. now destruct st.
Qed.

Lemma handleStep_does_nothing_on_empty_range_witness :
  handleStep (GetPodsOutput.mk []) step_just_below [] start = Ok start.
Proof.
  apply (handleStep_does_nothing_on_empty_range
           (GetPodsOutput.mk []) step_just_below [] start);
    vm_compute; congruence.
Defined.

(** A step with a range of at least one index whose [OnNode] is not the
    1-based position of a listed pod panics; a step that leaves [on_node]
    at zero is one of these. *)
Theorem handleStep_panics_without_pod_at_OnNode :
  forall (pods : GetPodsOutput.t) (step : Step.t) (rs : list received) (st : exec),
    0 <= Step.OnNode step <= Step.EndNode step ->
    Step.EndNode step <= GoInt.max_int ->
    Step.OnNode step < 1 \/ len (GetPodsOutput.Items pods) < Step.OnNode step ->
    handleStep pods step rs st = Panics.
Proof.
  intros pods step rs st Ho He Hout. unfold handleStep.
  destruct (_ <? 0); [reflexivity|]. unfold node_range.
  destruct (Z.to_nat (Step.EndNode step - Step.OnNode step + 1)) as [|n] eqn:En; [lia|].
  simpl. rewrite sub_no_overflow
    by (unfold GoInt.in_range, GoInt.min_int, GoInt.max_int in *; lia).
  unfold elem_at. destruct (Z.ltb_spec (Step.OnNode step - 1) 0) as [|Hge]; [reflexivity|].
  destruct (nth_error _ _) as [pod|] eqn:E; [|reflexivity].
  assert (H : nth_error (GetPodsOutput.Items pods) (Z.to_nat (Step.OnNode step - 1)) <> None)
    by (rewrite E; discriminate).
  apply nth_error_Some in H. unfold len in Hout. lia.
Qed.

Lemma handleStep_panics_without_pod_at_OnNode_witness :
  handleStep two_pods (default_EndNode step_without_OnNode) [quiet] start = Panics.
Proof.
  apply (handleStep_panics_without_pod_at_OnNode
           two_pods (default_EndNode step_without_OnNode) [quiet] start).
  - vm_compute. split; congruence.
  - vm_compute. congruence.
  - left. reflexivity.
Defined.

(** ** Counting results *)





Lemma check_assertions_counts (assertions : list Assertion.t) (out env : list string) :
  forall s s' : Summary.t,
    check_assertions assertions out env s = Ok s' ->
    0 <= Summary.Successes s -> 0 <= Summary.Failures s ->
    Summary.Successes s + Summary.Failures s + Z.of_nat (evaluated assertions out)
    <= GoInt.max_int ->
    Summary.Successes s' + Summary.Failures s'
    = Summary.Successes s + Summary.Failures s + Z.of_nat (evaluated assertions out)
    /\ Summary.Successes s <= Summary.Successes s'
    /\ Summary.Failures s <= Summary.Failures s'
    /\ Summary.Timeouts s' = Summary.Timeouts s
    /\ Summary.TestsRan s' = Summary.TestsRan s
    /\ Summary.TestsToRun s' = Summary.TestsToRun s.
Proof.
  induction assertions as [|a assertions IH]; intros s s' H HS HF Hmax; simpl in *.
  - injection H as <-. repeat split; lia.
  - destruct (Assertion.Line a >=? len out).
    + injection H as <-. simpl. repeat split; lia.
    + destruct (elem_at out (Assertion.Line a)) as [line| | |]; simpl in H;
        try discriminate.
      destruct (resolve (Assertion.ShouldBeEqualTo a) env) as [value| | |];
        simpl in H; try discriminate.
      assert (Hmin : GoInt.min_int <= 0) by (unfold GoInt.min_int; lia).
      destruct (String.eqb line value).
      * apply IH in H; unfold add_success in *; simpl in *;
          rewrite ?add_one_no_overflow in * by lia; try lia.
      * apply IH in H; unfold add_failure in *; simpl in *;
          rewrite ?add_one_no_overflow in * by lia; try lia.
Qed.

(** A result that did not time out, handled without a panic, counts each
    assertion before the first whose line is not below the number of
    captured lines exactly once, as a success or as a failure; later
    assertions are not counted at all, and the timeouts stay as they were. *)
Theorem handle_result_counts_each_evaluated_assertion :
  forall (step : Step.t) (r : received) (st st' : exec),
    rc_err r = false ->
    handle_result step r st = Ok st' ->
    0 <= Summary.Successes (ex_summary st) ->
    0 <= Summary.Failures (ex_summary st) ->
    Summary.Successes (ex_summary st) + Summary.Failures (ex_summary st)
    + Z.of_nat (evaluated (Step.Assertions step) (rc_out r)) <= GoInt.max_int ->
    Summary.Successes (ex_summary st') + Summary.Failures (ex_summary st')
    = Summary.Successes (ex_summary st) + Summary.Failures (ex_summary st)
      + Z.of_nat (evaluated (Step.Assertions step) (rc_out r))
    /\ Summary.Successes (ex_summary st) <= Summary.Successes (ex_summary st')
    /\ Summary.Failures (ex_summary st) <= Summary.Failures (ex_summary st')
    /\ Summary.Timeouts (ex_summary st') = Summary.Timeouts (ex_summary st).
Proof.
  intros step r st st' Herr. unfold handle_result. rewrite Herr.
  destruct (check_assertions _ _ _ _) as [s| | |] eqn:E; simpl; try discriminate.
  intros [= <-] HS HF Hmax. simpl.
  destruct (check_assertions_counts _ _ _ _ _ E HS HF Hmax) as (H1 & H2 & H3 & H4 & _).
  auto.
Qed.

Lemma handle_result_counts_each_evaluated_assertion_witness :
  Summary.Successes (Summary.mk 1 1 0 0 0) + Summary.Failures (Summary.mk 1 1 0 0 0)
  = Summary.Successes (ex_summary start) + Summary.Failures (ex_summary start)
    + Z.of_nat (evaluated (Step.Assertions step_two_assertions) ["ok"; "yes"])
  /\ Summary.Successes (ex_summary start) <= Summary.Successes (Summary.mk 1 1 0 0 0)
  /\ Summary.Failures (ex_summary start) <= Summary.Failures (Summary.mk 1 1 0 0 0)
  /\ Summary.Timeouts (Summary.mk 1 1 0 0 0) = Summary.Timeouts (ex_summary start).
Proof.
  apply (handle_result_counts_each_evaluated_assertion
           step_two_assertions (mkReceived ["ok"; "yes"] false true) start
           (mkExec (Summary.mk 1 1 0 0 0) [] [] [])).
  - reflexivity.
  - reflexivity.
  - vm_compute. congruence.
  - vm_compute. congruence.
  - vm_compute. congruence.
Defined.

(** An assertion with a negative line makes the handling of a result that
    did not time out panic as soon as the loop reaches it; a timed-out
    result never reaches it. *)
Theorem handle_result_panics_on_negative_line :
  forall (step : Step.t) (a : Assertion.t) (rest : list Assertion.t)
         (r : received) (st : exec),
    Step.Assertions step = a :: rest ->
    Assertion.Line a < 0 ->
    handle_result step r st
    = if rc_err r then Ok (set_summary st (add_timeout (ex_summary st))) else Panics.
Proof.
  intros step a rest r st Ha Hneg. unfold handle_result.
  destruct (rc_err r); [reflexivity|]. rewrite Ha. simpl.
  unfold len. destruct (Z.geb_spec (Assertion.Line a) (Z.of_nat (List.length (rc_out r))));
    [lia|].
  unfold elem_at. destruct (Z.ltb_spec (Assertion.Line a) 0); [reflexivity | lia].
Qed.

Lemma handle_result_panics_on_negative_line_witness :
  handle_result step_negative_line quiet start
  = if rc_err quiet then Ok (set_summary start (add_timeout (ex_summary start)))
    else Panics.
Proof.
  apply (handle_result_panics_on_negative_line
           step_negative_line (Assertion.mk (-1) "ok") [] quiet start).
  - reflexivity.
  - reflexivity.
Defined.

(** ** More on the assertion resolver *)

(** A target that starts with a closing parenthesis is a literal as long
    as the environment is empty, and makes the resolver panic as soon as
    the environment has an entry: the pattern is compiled once per entry,
    and it does not compile. *)
Theorem resolve_unbalanced_target_panics_once_bound :
  forall (rest e : string) (env : list string),
    resolve (String ")" rest) [] = Ok (String ")" rest)
    /\ resolve (String ")" rest) (e :: env) = Panics.
Proof. intros rest e env. split; reflexivity. Qed.

Lemma FindStringSubmatch_length (re : Regexp.regex) (numCap : nat) (s : string) :
  Regexp.FindStringSubmatch re numCap s = []
  \/ List.length (Regexp.FindStringSubmatch re numCap s) = S numCap.
Proof.
  unfold Regexp.FindStringSubmatch. destruct (Regexp.search re 0 s); [right | now left].
  now rewrite length_map, length_seq.
Qed.

Lemma find_value_other_group_count (target : string) (re : Regexp.regex) (numCap : nat) :
  Regexp.Compile (pattern_for target) = Regexp.Prog re numCap ->
  numCap <> 1%nat ->
  forall env, find_value target env = Ok EmptyString.
Proof.
  intros Hc Hn. induction env as [|e env IH]; simpl; [reflexivity|].
  rewrite Hc. destruct (FindStringSubmatch_length re numCap e) as [E|E].
  - rewrite E. simpl. exact IH.
  - unfold len. rewrite E.
    destruct (Z.eqb_spec (Z.of_nat (S numCap)) 2) as [H|_]; [lia|]. simpl. exact IH.
Qed.

(** A target whose pattern compiles with a number of groups other than one,
    as a target with a parenthesised part of its own does, is always taken
    as a literal: no entry of the environment is ever read for it. *)
Theorem resolve_target_with_own_group_is_literal :
  forall (target : string) (re : Regexp.regex) (numCap : nat) (env : list string),
    Regexp.Compile (pattern_for target) = Regexp.Prog re numCap ->
    numCap <> 1%nat ->
    resolve target env = Ok target.
Proof.
  intros target re numCap env Hc Hn. unfold resolve.
  now rewrite (find_value_other_group_count target re numCap Hc Hn).
Qed.

Lemma resolve_target_with_own_group_is_literal_witness :
  resolve "(HASH)" [binding "HASH" "Qm1"; binding "(HASH)" "Qm2"] = Ok "(HASH)".
Proof.
  apply (resolve_target_with_own_group_is_literal "(HASH)"
           (match Regexp.Compile (pattern_for "(HASH)") with
            | Regexp.Prog re _ => re
            | _ => Regexp.EmptyMatch
            end) 2).
  - reflexivity.
  - discriminate.
Defined.

Lemma find_value_app (target : string) (env2 : list string) :
  forall (env1 : list string) (w : string),
    find_value target env1 = Ok w -> w <> EmptyString ->
    find_value target (env1 ++ env2) = Ok w.
Proof.
  induction env1 as [|e env1 IH]; simpl; intros w H Hw.
  - injection H as <-. now destruct Hw.
  - destruct (Regexp.Compile (pattern_for target)) as [re n| |]; try discriminate.
    destruct (_ && _); [exact H | now apply IH].
Qed.

(** Once a target resolves to a value taken from the environment, entries
    added after it never change what it resolves to: the first match stays
    the match, for every target. *)
Theorem resolve_is_stable_under_later_bindings :
  forall (target v : string) (env1 env2 : list string),
    resolve target env1 = Ok v ->
    v <> target ->
    resolve target (env1 ++ env2) = Ok v.
Proof.
  intros target v env1 env2. unfold resolve.
  destruct (find_value target env1) as [w| | |] eqn:E; simpl; try discriminate.
  destruct (String.eqb_spec w EmptyString) as [->|Hw].
  - intros [= <-] H. now destruct H.
  - intros [= <-] _. rewrite (find_value_app _ _ _ _ E Hw). simpl.
    destruct (String.eqb_spec w EmptyString); [contradiction | reflexivity].
Qed.

Lemma resolve_is_stable_under_later_bindings_witness :
  resolve "HASH" ([binding "HASH" "Qm1"] ++ [binding "HASH" "Qm2"]) = Ok "Qm1".
Proof.
  apply (resolve_is_stable_under_later_bindings "HASH" "Qm1").
  - reflexivity.
  - discriminate.
Defined.

Lemma serialize_app (bs1 bs2 : list (string * string)) :
  serialize (bs1 ++ bs2) = serialize bs1 ++ serialize bs2.
Proof. unfold serialize. apply map_app. Qed.

Lemma resolve_spec_fresh (name line : string) (bs : list (string * string)) :
  Forall (fun b => fst b <> name \/ snd b = EmptyString) bs ->
  line <> EmptyString ->
  resolve_spec name (bs ++ [(name, line)]) = line.
Proof.
  intros Hbs Hl. induction Hbs as [|[n v] bs Hb _ IH]; simpl.
  - rewrite String.eqb_refl. destruct (String.eqb_spec line EmptyString);
      [contradiction | reflexivity].
  - simpl in Hb. destruct Hb as [Hn|Hv].
    + destruct (String.eqb_spec n name); [contradiction | exact IH].
    + subst v. rewrite andb_false_r. exact IH.
Qed.

(** What an output binding saves is what a later assertion on its name
    gets: for a name without metacharacter or equals sign that no earlier
    binding gives a non-empty value to, after the output loop has saved a
    non-empty captured line under it, the resolver answers that line. *)
Theorem saved_line_is_resolved_by_name :
  forall (name line : string) (more : list string) (declared : Z) (file : string)
         (bindings : list (string * string)),
    plain name = true ->
    no_equals name = true ->
    Forall (fun b => no_equals (fst b) = true /\ no_newline (snd b) = true) bindings ->
    Forall (fun b => fst b <> name \/ snd b = EmptyString) bindings ->
    no_newline line = true ->
    line <> EmptyString ->
    resolve name
      (save_outputs [Output.mk declared name file] 0 (line :: more) (serialize bindings))
    = Ok line.
Proof.
  intros name line more declared file bindings Hp He Hgood Hfresh Hnl Hline.
  rewrite (save_outputs_zip _ _ 0). simpl.
  change [binding name line] with (serialize [(name, line)]).
  rewrite <- serialize_app. unfold resolve.
  rewrite (find_value_plain name Hp). simpl.
  rewrite (first_value_serialize name He).
  - now rewrite resolve_spec_fresh.
  - apply Forall_app. split; [exact Hgood|]. now repeat constructor.
Qed.

Lemma saved_line_is_resolved_by_name_witness :
  resolve "HASH"
    (save_outputs [Output.mk 0 "HASH" EmptyString] 0 ["Qm1"; EmptyString]
                  (serialize [("PIDS", "a b")]))
  = Ok "Qm1".
Proof.
  apply (saved_line_is_resolved_by_name "HASH" "Qm1" [EmptyString] 0 EmptyString
           [("PIDS", "a b")]).
  - reflexivity.
  - reflexivity.
  - repeat constructor.
  - constructor; [left; discriminate | constructor].
  - reflexivity.
  - discriminate.
Defined.

(** ** What a result adds to the environment *)

(** A result that did not time out, handled without a panic, appends to
    the environment one entry per output binding, the i-th binding paired
    with captured line i whatever line it declares, until the bindings or
    the lines run out; nothing already in the environment is touched. *)
Theorem handle_result_appends_bindings_by_position :
  forall (step : Step.t) (r : received) (st st' : exec),
    rc_err r = false ->
    handle_result step r st = Ok st' ->
    ex_env st'
    = ex_env st ++ map (fun ol => binding (Output.SaveTo (fst ol)) (snd ol))
                       (combine (Step.Outputs step) (rc_out r))
    /\ List.length (ex_env st')
       = (List.length (ex_env st)
          + Nat.min (List.length (Step.Outputs step)) (List.length (rc_out r)))%nat.
Proof.
  intros step r st st' Herr. unfold handle_result. rewrite Herr.
  destruct (check_assertions _ _ _ _) as [s| | |]; simpl; try discriminate.
  intros [= <-]. simpl. rewrite (save_outputs_zip _ _ 0). simpl.
  split; [reflexivity|]. now rewrite length_app, length_map, length_combine.
Qed.

Lemma handle_result_appends_bindings_by_position_witness :
  ex_env (mkExec Summary.zero [binding "HASH" "Qm1"; binding "SIZE" "42"] [] [])
  = ex_env start ++ map (fun ol => binding (Output.SaveTo (fst ol)) (snd ol))
                        (combine (Step.Outputs step_saving_two) ["Qm1"; "42"; "x"])
  /\ List.length
       (ex_env (mkExec Summary.zero [binding "HASH" "Qm1"; binding "SIZE" "42"] [] []))
     = (List.length (ex_env start)
        + Nat.min (List.length (Step.Outputs step_saving_two))
                  (List.length ["Qm1"; "42"; "x"]))%nat.
Proof.
  apply (handle_result_appends_bindings_by_position
           step_saving_two (mkReceived ["Qm1"; "42"; "x"] false true) start).
  - reflexivity.
  - reflexivity.
Defined.

Lemma handle_result_added_entries (step : Step.t) (r : received) (st st' : exec) :
  handle_result step r st = Ok st' ->
  exists added,
    ex_env st' = ex_env st ++ added
    /\ Forall (fun e => exists o line,
                          In o (Step.Outputs step) /\ In line (rc_out r)
                          /\ e = binding (Output.SaveTo o) line) added.
Proof.
  unfold handle_result. destruct (rc_err r).
  - intros [= <-]. exists []. simpl. now rewrite app_nil_r.
  - destruct (check_assertions _ _ _ _) as [s| | |]; simpl; try discriminate.
    intros [= <-]. simpl. rewrite (save_outputs_zip _ _ 0). simpl.
    eexists. split; [reflexivity|]. apply Forall_forall. intros e He.
    apply in_map_iff in He as ([o line] & <- & Hin).
    exists o, line. simpl. split; [now apply in_combine_l in Hin|].
    split; [now apply in_combine_r in Hin | reflexivity].
Qed.

Lemma collect_added_entries (step : Step.t) (js : list Z) :
  forall (rs : list received) (st st' : exec),
    collect step js rs st = Ok st' ->
    exists added,
      ex_env st' = ex_env st ++ added
      /\ Forall (fun e => exists o r line,
                            In o (Step.Outputs step) /\ In r rs /\ In line (rc_out r)
                            /\ e = binding (Output.SaveTo o) line) added.
Proof.
  induction js as [|j js IH]; simpl; intros rs st st' H.
  - injection H as <-. exists []. now rewrite app_nil_r.
  - destruct rs as [|r rs]; [discriminate|].
    destruct (handle_result step r st) as [st1| | |] eqn:E; simpl in H; try discriminate.
    destruct (handle_result_added_entries _ _ _ _ E) as (a1 & E1 & F1).
    destruct (IH _ _ _ H) as (a2 & E2 & F2).
    exists (a1 ++ a2). split; [now rewrite E2, E1, app_assoc|].
    apply Forall_app. split.
    + eapply Forall_impl; [|exact F1]. intros e (o & line & Ho & Hl & ->).
      exists o, r, line. simpl. auto.
    + eapply Forall_impl; [|exact F2]. intros e (o & r' & line & Ho & Hr & Hl & ->).
      exists o, r', line. simpl. auto.
Qed.

(** A step only ever appends to the environment, and every entry it
    appends is the name of one of its own output bindings bound to a line
    one of its own results captured. *)
Theorem handleStep_only_appends_own_bindings :
  forall (pods : GetPodsOutput.t) (step : Step.t) (rs : list received)
         (st st' : exec),
    handleStep pods step rs st = Ok st' ->
    exists added,
      ex_env st' = ex_env st ++ added
      /\ Forall (fun e => exists o r line,
                            In o (Step.Outputs step) /\ In r rs /\ In line (rc_out r)
                            /\ e = binding (Output.SaveTo o) line) added.
Proof.
  intros pods step rs st st'. unfold handleStep. destruct (_ <? 0); [discriminate|].
  destruct (dispatch _ _ _ _) as [launched| | |]; simpl; try discriminate.
  intros H. now apply collect_added_entries in H.
Qed.

Lemma handleStep_only_appends_own_bindings_witness :
  exists added,
    ex_env (mkExec Summary.zero [binding "HASH" "a"] [] [mkInvocation "ipfs-0" "ipfs add -q" 0])
    = ex_env start ++ added
    /\ Forall (fun e => exists o r line,
                          In o (Step.Outputs step_saving_line_1)
                          /\ In r [mkReceived ["a"; "b"] false true]
                          /\ In line (rc_out r)
                          /\ e = binding (Output.SaveTo o) line) added.
Proof.
  apply (handleStep_only_appends_own_bindings
           two_pods step_saving_line_1 [mkReceived ["a"; "b"] false true] start).
  reflexivity.
Defined.

(** ** The bookkeeping of [main] *)

Lemma handle_result_keeps_tests (step : Step.t) (r : received) (st st' : exec) :
  handle_result step r st = Ok st' ->
  Summary.TestsRan (ex_summary st') = Summary.TestsRan (ex_summary st)
  /\ Summary.TestsToRun (ex_summary st') = Summary.TestsToRun (ex_summary st).
Proof.
  unfold handle_result. destruct (rc_err r); [now intros [= <-]|].
  destruct (check_assertions _ _ _ _) as [s| | |] eqn:E; simpl; try discriminate.
  intros [= <-]. simpl. clear - E.
  revert E. generalize (ex_summary st) as s0.
  generalize (save_outputs (Step.Outputs step) 0 (rc_out r) (ex_env st)) as env.
  induction (Step.Assertions step) as [|a l IH]; intros env s0 E; simpl in E.
  - now injection E as <-.
  - destruct (_ >=? _); [now injection E as <-|].
    destruct (elem_at _ _) as [line| | |]; simpl in E; try discriminate.
    destruct (resolve _ _) as [value| | |]; simpl in E; try discriminate.
    apply IH in E. destruct (String.eqb line value); exact E.
Qed.

Lemma collect_keeps_tests (step : Step.t) (js : list Z) :
  forall (rs : list received) (st st' : exec),
    collect step js rs st = Ok st' ->
    Summary.TestsRan (ex_summary st') = Summary.TestsRan (ex_summary st)
    /\ Summary.TestsToRun (ex_summary st') = Summary.TestsToRun (ex_summary st).
Proof.
  induction js as [|j js IH]; simpl; intros rs st st' H; [now injection H as <-|].
  destruct rs as [|r rs]; [discriminate|].
  destruct (handle_result step r st) as [st1| | |] eqn:E; simpl in H; try discriminate.
  apply handle_result_keeps_tests in E. apply IH in H.
  destruct E, H. split; congruence.
Qed.

Lemma handleStep_keeps_tests (pods : GetPodsOutput.t) (step : Step.t)
    (rs : list received) (st st' : exec) :
  handleStep pods step rs st = Ok st' ->
  Summary.TestsRan (ex_summary st') = Summary.TestsRan (ex_summary st)
  /\ Summary.TestsToRun (ex_summary st') = Summary.TestsToRun (ex_summary st).
Proof.
  unfold handleStep. destruct (_ <? 0); [discriminate|].
  destruct (dispatch _ _ _ _) as [launched| | |]; simpl; try discriminate.
  intros H. now apply collect_keeps_tests in H.
Qed.

Lemma run_steps_keeps_tests (pods : GetPodsOutput.t) (steps : list Step.t) :
  forall (results : list (list received)) (st st' : exec) cs,
    run_steps pods steps results st = (cs, Ok st') ->
    Summary.TestsRan (ex_summary st') = Summary.TestsRan (ex_summary st)
    /\ Summary.TestsToRun (ex_summary st') = Summary.TestsToRun (ex_summary st).
Proof.
  induction steps as [|step steps IH]; simpl; intros results st st' cs H.
  - now injection H as _ <-.
  - destruct (handleStep pods (default_EndNode step) (hd [] results) st)
      as [st1| | |] eqn:E; try discriminate.
    destruct (run_steps pods steps (tl results) st1) as [cs' o] eqn:E'.
    injection H as _ ->. apply handleStep_keeps_tests in E. apply IH in E'.
    destruct E, E'. split; congruence.
Qed.

Lemma run_body_ran_one (test : Test.t) (w : repetition) (sh sh' : shared) cs :
  run_body test w sh = (cs, inl sh') ->
  Summary.TestsRan (sh_summary sh') = GoInt.add (Summary.TestsRan (sh_summary sh)) 1
  /\ Summary.TestsToRun (sh_summary sh') = Summary.TestsToRun (sh_summary sh).
Proof.
  unfold run_body. destruct (Test.Steps test) as [|s steps]; [now intros [= _ <-]|].
  destruct (rep_pods w) as [pods|]; [|discriminate].
  destruct (run_steps pods _ _ _) as [cs' [st| | |]] eqn:E; try discriminate.
  intros [= _ <-]. apply run_steps_keeps_tests in E. simpl in *.
  destruct E as [E1 E2]. now rewrite E1, E2.
Qed.

Lemma run_repetition_ran_one (test : Test.t) (w : repetition) (sh sh' : shared) cs :
  run_repetition test w sh = (cs, inl sh') ->
  Summary.TestsRan (sh_summary sh') = GoInt.add (Summary.TestsRan (sh_summary sh)) 1
  /\ Summary.TestsToRun (sh_summary sh') = Summary.TestsToRun (sh_summary sh).
Proof.
  unfold run_repetition. destruct (rep_running w); [|discriminate].
  destruct (_ >? _); [destruct (rep_scale w)|]; try discriminate;
    apply run_body_ran_one.
Qed.

Lemma run_repetitions_ran (test : Test.t) (times : nat) :
  forall (ws : list repetition) (sh sh' : shared) css,
    run_repetitions test times ws sh = (css, inl sh') ->
    GoInt.min_int <= Summary.TestsRan (sh_summary sh) ->
    Summary.TestsRan (sh_summary sh) + Z.of_nat times <= GoInt.max_int ->
    Summary.TestsRan (sh_summary sh') = Summary.TestsRan (sh_summary sh) + Z.of_nat times
    /\ Summary.TestsToRun (sh_summary sh') = Summary.TestsToRun (sh_summary sh)
    /\ List.length css = times.
Proof.
  induction times as [|times IH]; intros ws sh sh' css H Hlo Hhi.
  - simpl in H. injection H as <- <-. simpl. repeat split; lia.
  - simpl in H. destruct (run_repetition test _ sh) as [cs [sh1|e]] eqn:E; [|discriminate].
    destruct (run_repetitions test times (tl ws) sh1) as [css' o] eqn:E'.
    injection H as <- ->. apply run_repetition_ran_one in E. destruct E as [E1 E2].
    rewrite add_one_no_overflow in E1 by lia.
    apply IH in E'; try lia. destruct E' as (H1 & H2 & H3).
    simpl. rewrite H1, H2, H3, E1, E2. repeat split; lia.
Qed.

(** A run of [main] that completes its repetitions has gone through as
    many repetitions as the test asks for, none when that number is
    negative, and its summary says so: tests ran equals tests to run,
    unless the latter is negative. *)
Theorem completed_run_ran_every_repetition :
  forall (test : Test.t) (ws : list repetition) css sh,
    run_repetitions test (Z.to_nat (Config.Times (Test.Config test))) ws
      (mkShared (Summary.mk 0 0 (Config.Times (Test.Config test)) 0 0) [] [])
    = (css, inl sh) ->
    Config.Times (Test.Config test) <= GoInt.max_int ->
    Summary.TestsRan (sh_summary sh) = Z.max 0 (Config.Times (Test.Config test))
    /\ Summary.TestsToRun (sh_summary sh) = Config.Times (Test.Config test)
    /\ List.length css = Z.to_nat (Config.Times (Test.Config test))
    /\ fst (main test ws) = css.
Proof.
  intros test ws css sh H Hmax.
  destruct (run_repetitions_ran _ _ _ _ _ _ H) as (H1 & H2 & H3).
  { simpl. unfold GoInt.min_int. lia. }
  { simpl. unfold GoInt.max_int in *. lia. }
  simpl in H1, H2. repeat split; try lia; try assumption.
  unfold main. now rewrite H.
Qed.

Lemma completed_run_ran_every_repetition_witness :
  Summary.TestsRan (Summary.mk 10 0 5 5 0) = Z.max 0 (Config.Times (Test.Config scenario_5))
  /\ Summary.TestsToRun (Summary.mk 10 0 5 5 0) = Config.Times (Test.Config scenario_5)
  /\ List.length (fst (main scenario_5 scenario_5_cluster))
     = Z.to_nat (Config.Times (Test.Config scenario_5))
  /\ fst (main scenario_5 scenario_5_cluster) = fst (main scenario_5 scenario_5_cluster).
Proof.
  apply (completed_run_ran_every_repetition scenario_5 scenario_5_cluster
           (fst (main scenario_5 scenario_5_cluster))
           (mkShared (Summary.mk 10 0 5 5 0) []
              (repeat (mkInvocation "ipfs-0" "cat two-lines.txt" 0) 5))).
  - vm_compute. reflexivity.
  - vm_compute. congruence.
Defined.

Lemma evaluateOutcome_zero (summary : Summary.t) (expected : Expected.t) :
  evaluateOutcome summary expected = 0 <->
  Summary.Successes summary = Expected.Successes expected /\
  Summary.Failures summary = Expected.Failures expected /\
  Summary.Timeouts summary = Expected.Timeouts expected.
Proof.
  unfold evaluateOutcome. split.
  - compare_counters summary expected; simpl; try discriminate; auto.
  - intros [H1 [H2 H3]]. rewrite H1, H2, H3. now rewrite !Z.eqb_refl.
Qed.

(** When [main] leaves through [os.Exit], the code is 0 or 1; with a
    number of repetitions that is zero or negative it makes no call of
    [handleStep] and exits with 0 exactly when all three expected counters
    are zero. *)
Theorem main_exits_with_zero_or_one :
  forall (test : Test.t) (ws : list repetition),
    (forall code, snd (main test ws) = Exit code -> code = 0 \/ code = 1)
    /\ (Config.Times (Test.Config test) <= 0 ->
        fst (main test ws) = []
        /\ (snd (main test ws) = Exit 0
            <-> Expected.Successes (Config.Expected (Test.Config test)) = 0
                /\ Expected.Failures (Config.Expected (Test.Config test)) = 0
                /\ Expected.Timeouts (Config.Expected (Test.Config test)) = 0)).
Proof.
  intros test ws. split.
  - intros code. unfold main.
    destruct (run_repetitions test _ ws _) as [css [sh|e]] eqn:E; simpl.
    + intros [= <-]. unfold evaluateOutcome. destruct (_ || _); auto.
    + intros ->. apply run_repetitions_Exit in E. auto.
  - intros Hle. unfold main.
    replace (Z.to_nat (Config.Times (Test.Config test))) with O by lia. simpl.
    split; [reflexivity|]. split.
    + intros [= H]. apply evaluateOutcome_zero in H. simpl in H. intuition congruence.
    + intros (H1 & H2 & H3). f_equal. apply evaluateOutcome_zero. simpl. auto.
Qed.

Lemma main_exits_with_zero_or_one_witness :
  (forall code,
     snd (main (Test.mk "none" (Config.mk 1 "app=ipfs" 0 0 (Expected.mk 0 0 0)) []) [])
     = Exit code -> code = 0 \/ code = 1)
  /\ (Config.Times (Test.Config
                      (Test.mk "none" (Config.mk 1 "app=ipfs" 0 0 (Expected.mk 0 0 0)) []))
      <= 0 ->
      fst (main (Test.mk "none" (Config.mk 1 "app=ipfs" 0 0 (Expected.mk 0 0 0)) []) [])
      = []
      /\ (snd (main (Test.mk "none" (Config.mk 1 "app=ipfs" 0 0 (Expected.mk 0 0 0)) []) [])
          = Exit 0
          <-> 0 = 0 /\ 0 = 0 /\ 0 = 0)).
Proof.
  apply (main_exits_with_zero_or_one
           (Test.mk "none" (Config.mk 1 "app=ipfs" 0 0 (Expected.mk 0 0 0)) []) []).
Defined.

(** ** Waiting for every result *)

Lemma collect_takes_one_each (step : Step.t) (js : list Z) :
  forall (rs : list received) (st st' : exec),
    collect step js rs st = Ok st' -> (List.length js <= List.length rs)%nat.
Proof.
  induction js as [|j js IH]; simpl; intros rs st st' H; [lia|].
  destruct rs as [|r rs]; [discriminate|].
  destruct (handle_result step r st) as [st1| | |]; simpl in H; try discriminate.
  apply IH in H. simpl. lia.
Qed.

(** [handleStep] returns only after it has received one pair for every
    index of its range: with fewer pairs than indices it never returns a
    state. *)
Theorem handleStep_returns_after_every_result :
  forall (pods : GetPodsOutput.t) (step : Step.t) (rs : list received)
         (st st' : exec),
    handleStep pods step rs st = Ok st' ->
    (List.length (node_range (Step.OnNode step) (Step.EndNode step))
     <= List.length rs)%nat.
Proof.
  intros pods step rs st st'. unfold handleStep. destruct (_ <? 0); [discriminate|].
  destruct (dispatch _ _ _ _) as [launched| | |]; simpl; try discriminate.
  apply collect_takes_one_each.
Qed.

Lemma handleStep_returns_after_every_result_witness :
  (List.length (node_range (Step.OnNode step_on_1_to_2) (Step.EndNode step_on_1_to_2))
   <= List.length [quiet; quiet])%nat.
Proof.
  apply (handleStep_returns_after_every_result two_pods step_on_1_to_2 [quiet; quiet]
           start
           (mkExec Summary.zero [] []
                   [mkInvocation "ipfs-0" "id" 0; mkInvocation "ipfs-0" "id" 0])).
  reflexivity.
Defined.

(** ** The synchronous sibling *)

Lemma Split_one_line (s : string) (sep : ascii) :
  all_chars (fun c => negb (Ascii.eqb c sep)) s = true -> Split s sep = [s].
Proof.
  induction s as [|c s IH]; simpl; intros H; [reflexivity|].
  apply andb_true_iff in H as [Hc Hs]. apply negb_true_iff in Hc.
  now rewrite Hc, (IH Hs).
Qed.

Lemma Split_last_piece (s tail : string) (sep : ascii) :
  all_chars (fun c => negb (Ascii.eqb c sep)) tail = true ->
  Split (s ++ String sep tail) sep = Split s sep ++ [tail].
Proof.
  intros Ht. induction s as [|c s IH]; simpl.
  - now rewrite Ascii.eqb_refl, (Split_one_line _ _ Ht).
  - destruct (Ascii.eqb c sep).
    + now rewrite IH.
    + rewrite IH. destruct (Split s sep) as [|h t] eqn:E;
        [now destruct (Split_nonempty s sep) | reflexivity].
Qed.

(** [runInPod] returns the lines of the standard output up to its last
    newline and drops whatever follows it: an output that does not end
    with a newline loses its last line, and an output of one line without
    newline comes back as no line at all. *)
Theorem runInPod_drops_text_after_last_newline :
  forall (timeout : Z) (fired : bool) (s tail : string),
    no_newline tail = true ->
    fst (runInPod timeout (mkProcess (s ++ String newline tail) fired))
    = Split s newline
    /\ fst (runInPod timeout (mkProcess tail fired)) = [].
Proof.
  intros timeout fired s tail Ht. unfold runInPod, drop_last. simpl. split.
  - rewrite (Split_last_piece _ _ _ Ht). apply removelast_last.
  - now rewrite (Split_one_line _ _ Ht).
Qed.

Lemma runInPod_drops_text_after_last_newline_witness :
  fst (runInPod 0 (mkProcess ("a" ++ String newline "b") false)) = Split "a" newline
  /\ fst (runInPod 0 (mkProcess "b" false)) = [].
Proof.
  apply (runInPod_drops_text_after_last_newline 0 false "a" "b"). reflexivity.
Defined.
